(** * MindexDB: a Redis-like facade over IndexedDB

    A shallow embedding of [mindexdb.js].  The four IndexedDB object stores
    are finite maps, every public method of the class is a computation in a
    state monad over the database, the clock and the expiry worker, and the
    properties of the storage engine are proved about these computations.

    The embedding follows the class that has [ttl] and reads its requests
    in [onsuccess] callbacks.  The repository holds a second copy of the
    class, without [ttl], whose hash and list methods await the requests
    instead; that copy is not modelled.  One operation runs at a time:
    a method call is a single step from world to world, and the backend
    never fails. *)

From Stdlib Require Import ZArith String List Lia.
From stdpp Require Import base option gmap strings list fin_maps.

Local Open Scope string_scope.
Local Open Scope list_scope.
Local Open Scope Z_scope.

Set Warnings "-register-all".

(** ** JavaScript values *)

(** The values IndexedDB can hold (structured-cloneable data).  Numbers are
    the integers a double represents exactly. *)
Inductive value : Type :=
| VUndefined
| VNull
| VBool (b : bool)
| VNum (n : Z)
| VStr (s : string)
| VArr (elems : list value)
| VObj (props : list (string * value)).

(** What a property read on a plain object can yield: stored data, or a
    member the object inherits from [Object.prototype]. *)
Inductive jsval : Type :=
| Data (v : value)
| Inherited (name : string).

(** A JavaScript number as far as [ttl] computes with it. *)
Inductive number : Type :=
| Num (z : Z)
| NaN.

(** The record kept in the expiry store, [{ key, expireAt }]. *)
Record expiryRecord : Type := ExpiryRecord {
  recordKey : string;
  expireAt : Z }.

(** ** Plain objects *)

(** The string-keyed members of [Object.prototype] in a browser. *)
Definition Object_prototype : list string :=
  [ "constructor"; "hasOwnProperty"; "isPrototypeOf"; "propertyIsEnumerable";
    "toLocaleString"; "toString"; "valueOf"; "__proto__";
    "__defineGetter__"; "__defineSetter__"; "__lookupGetter__";
    "__lookupSetter__" ].

Definition inherited (key : string) : bool :=
  bool_decide (key ∈ Object_prototype).

(** [key in obj]: own properties, then the prototype chain. *)
Definition js_in (key : string) (obj : gmap string value) : bool :=
  bool_decide (is_Some (obj !! key)) || inherited key.

(** [obj[key]] as an expression. *)
Definition js_get (obj : gmap string value) (key : string) : jsval :=
  match obj !! key with
  | Some v => Data v
  | None => if inherited key then Inherited key else Data VUndefined
  end.

(** [obj[key] = v] on an object whose prototype is [Object.prototype]:
    ["__proto__"] is an inherited accessor, so assigning it runs the setter
    and creates no own property; every other key becomes an own property. *)
Definition js_assign (obj : gmap string value) (key : string) (v : value)
  : gmap string value :=
  if bool_decide (key = "__proto__") then obj else <[key := v]> obj.

(** [Array.prototype.slice(start, end)] for integer arguments. *)
Definition Array_slice {A} (l : list A) (start end_ : Z) : list A :=
  let len := Z.of_nat (length l) in
  let k := if start <? 0 then Z.max (len + start) 0 else Z.min start len in
  let final := if end_ <? 0 then Z.max (len + end_) 0 else Z.min end_ len in
  let count := Z.max (final - k) 0 in
  take (Z.to_nat count) (drop (Z.to_nat k) l).

(** [Array.prototype.shift] and [Array.prototype.pop] on a non-empty array:
    the removed item and the array that is left. *)
Definition Array_shift {A} (l : list A) : option (A * list A) :=
  match l with
  | [] => None
  | x :: l' => Some (x, l')
  end.

Definition Array_pop {A} (l : list A) : option (A * list A) :=
  match last l with
  | None => None
  | Some x => Some (x, removelast l)
  end.

(** ** Numbers *)

Definition js_minus (a b : number) : number :=
  match a, b with
  | Num x, Num y => Num (x - y)
  | _, _ => NaN
  end.

(** [Math.ceil(a / d)] for a positive integer [d]. *)
Definition Math_ceil_div (a : number) (d : Z) : number :=
  match a with
  | Num x => Num (- ((- x) / d))
  | NaN => NaN
  end.

(** The conversion of a number to a Web IDL [long], the type of the delay
    of [setTimeout]: modulo 2^32, into the signed 32-bit range. *)
Definition ToInt32 (z : Z) : Z :=
  let m := z mod 2 ^ 32 in
  if m <? 2 ^ 31 then m else m - 2 ^ 32.

(** [a > z]; every comparison with [NaN] is false. *)
Definition js_gt (a : number) (z : Z) : bool :=
  match a with
  | Num x => z <? x
  | NaN => false
  end.

(** ** The database, the clock and the expiry worker *)

Inductive write : Type :=
| Put (storeName key : string)
| Delete (storeName key : string).

Record world : Type := World {
  st_keyValue : gmap string value;
  st_hash : gmap string (gmap string value);
  st_list : gmap string (list value);
  st_expiry : gmap string expiryRecord;
  (** the write requests issued so far, oldest first *)
  writes : list write;
  (** [Date.now()] *)
  clock : Z;
  (** messages posted to the worker and not yet handled, oldest first *)
  inbox : list (string * Z);
  (** the worker's pending [setTimeout] callbacks: key and due instant *)
  timers : list (string * Z) }.

(** An object store as a transaction sees it.  The hash store only ever
    receives the objects [hset] puts and the list store the arrays the list
    operations put, so a record read back from them is an object,
    respectively an array, whenever it is there at all. *)
Record objectStore (C : Type) : Type := ObjectStore {
  storeName : string;
  contents : world -> gmap string C;
  replace_contents : gmap string C -> world -> world }.
Arguments storeName {C}.
Arguments contents {C}.
Arguments replace_contents {C}.

Definition keyValueStore : objectStore value :=
  {| storeName := "keyValue";
     contents := st_keyValue;
     replace_contents := fun m w =>
       World m (st_hash w) (st_list w) (st_expiry w)
             (writes w) (clock w) (inbox w) (timers w) |}.

Definition hashStore : objectStore (gmap string value) :=
  {| storeName := "hash";
     contents := st_hash;
     replace_contents := fun m w =>
       World (st_keyValue w) m (st_list w) (st_expiry w)
             (writes w) (clock w) (inbox w) (timers w) |}.

Definition listStore : objectStore (list value) :=
  {| storeName := "list";
     contents := st_list;
     replace_contents := fun m w =>
       World (st_keyValue w) (st_hash w) m (st_expiry w)
             (writes w) (clock w) (inbox w) (timers w) |}.

Definition expiryStore : objectStore expiryRecord :=
  {| storeName := "expiry";
     contents := st_expiry;
     replace_contents := fun m w =>
       World (st_keyValue w) (st_hash w) (st_list w) m
             (writes w) (clock w) (inbox w) (timers w) |}.

Definition record_write (wr : write) (w : world) : world :=
  World (st_keyValue w) (st_hash w) (st_list w) (st_expiry w)
        (writes w ++ [wr]) (clock w) (inbox w) (timers w).

(** ** The monad of engine computations *)

Definition M (A : Type) : Type := world -> A * world.

#[global] Instance M_ret : MRet M := fun A a w => (a, w).
#[global] Instance M_bind : MBind M :=
  fun A B f m w => let '(a, w') := m w in f a w'.

Definition result_of {A} (m : M A) (w : world) : A := fst (m w).
Definition world_after {A} (m : M A) (w : world) : world := snd (m w).

(** ** IndexedDB requests *)

(** An [IDBRequest] once it has succeeded; [None] is [undefined]. *)
Record IDBRequest (R : Type) : Type := Request { result : option R }.
Arguments Request {R}.
Arguments result {R}.

Definition store_get {C} (store : objectStore C) (key : string)
  : M (IDBRequest C) :=
  fun w => (Request (contents store w !! key), w).

Definition store_count {C} (store : objectStore C) (key : string)
  : M (IDBRequest Z) :=
  fun w =>
    (Request (Some (match contents store w !! key with
                    | Some _ => 1
                    | None => 0
                    end)), w).

(** [store.put(value, key)] on a store with out-of-line keys. *)
Definition store_put {C} (store : objectStore C) (v : C) (key : string)
  : M (IDBRequest string) :=
  fun w =>
    (Request (Some key),
     record_write (Put (storeName store) key)
       (replace_contents store (<[key := v]> (contents store w)) w)).

(** [store.put(record)] on the expiry store, whose key path is ['key']. *)
Definition store_put_record (store : objectStore expiryRecord)
    (r : expiryRecord) : M (IDBRequest string) :=
  store_put store r (recordKey r).

Definition store_delete {C} (store : objectStore C) (key : string)
  : M (IDBRequest unit) :=
  fun w =>
    (Request None,
     record_write (Delete (storeName store) key)
       (replace_contents store (delete key (contents store w)) w)).

(** What the callback handed to [_performTransaction] returns. *)
Inductive returned (R P : Type) : Type :=
| ReturnsNothing
| ReturnsRequest (request : IDBRequest R)
| ReturnsPromise (settled : P).
Arguments ReturnsNothing {R P}.
Arguments ReturnsRequest {R P}.
Arguments ReturnsPromise {R P}.

(** ** The engine *)

Module MindexDB.

(** [_performTransaction(storeName, mode, operation)]: run the callback on
    the store and, when the transaction completes, resolve with
    [request ? request.result : undefined].  A Promise has no [result]
    property. *)
Definition _performTransaction {C R P} (store : objectStore C) (mode : string)
    (operation : objectStore C -> M (returned R P)) : M (option R) :=
  request ← operation store;
  mret (match request with
        | ReturnsNothing => None
        | ReturnsRequest rq => result rq
        | ReturnsPromise _ => None
        end).

(** *** Key-value operations *)

Definition set (key : string) (v : value) : M (option unit) :=
  _performTransaction (P := unit) keyValueStore "readwrite" (fun store =>
    (* { store.put(value, key); } *)
    _ ← store_put store v key;
    mret ReturnsNothing).

Definition get (key : string) : M (option value) :=
  _performTransaction (P := unit) keyValueStore "readonly" (fun store =>
    (* return store.get(key) *)
    request ← store_get store key;
    mret (ReturnsRequest request)).

(** *** Hash operations *)

Definition hset (hash key : string) (v : value) : M (option unit) :=
  _performTransaction hashStore "readwrite" (fun store =>
    request ← store_get store hash;
    (* request.onsuccess *)
    (* request.result || {} *)
    let hashObj := default ∅ (result request) in
    (* hashObj[key] = value *)
    let hashObj := js_assign hashObj key v in
    putRequest ← store_put store hashObj hash;
    mret (ReturnsPromise tt)).

Definition hget (hash key : string) : M jsval :=
  let store := hashStore in
  request ← store_get store hash;
  (* request.onsuccess *)
  mret (match result request with
        | Some hashObj =>
            (* hashObj && typeof hashObj === 'object' && key in hashObj *)
            if js_in key hashObj then js_get hashObj key else Data VNull
        | None => Data VNull
        end).

(** *** List operations *)

Definition lpush (key : string) (values : list value) : M Z :=
  let store := listStore in
  getRequest ← store_get store key;
  (* getRequest.onsuccess *)
  (* if (!Array.isArray(list)) list = [] *)
  let list := default [] (result getRequest) in
  (* list.unshift(...values) *)
  let list := values ++ list in
  putRequest ← store_put store list key;
  mret (Z.of_nat (length list)).

Definition rpush (key : string) (values : list value) : M Z :=
  let store := listStore in
  getRequest ← store_get store key;
  (* getRequest.onsuccess *)
  (* if (!Array.isArray(list)) list = [] *)
  let list := default [] (result getRequest) in
  (* list.push(...values) *)
  let list := list ++ values in
  putRequest ← store_put store list key;
  mret (Z.of_nat (length list)).

Definition lpop (key : string) : M value :=
  let store := listStore in
  getRequest ← store_get store key;
  (* getRequest.onsuccess *)
  match result getRequest ≫= Array_shift with
  | None =>
      (* !Array.isArray(list) || list.length === 0 *)
      mret VNull
  | Some (item, list) =>
      putRequest ← store_put store list key;
      mret item
  end.

Definition rpop (key : string) : M value :=
  let store := listStore in
  getRequest ← store_get store key;
  (* getRequest.onsuccess *)
  match result getRequest ≫= Array_pop with
  | None =>
      (* !Array.isArray(list) || list.length === 0 *)
      mret VNull
  | Some (item, list) =>
      putRequest ← store_put store list key;
      mret item
  end.

Definition lrange (key : string) (start stop : Z) : M (list value) :=
  let store := listStore in
  request ← store_get store key;
  (* request.onsuccess *)
  mret (match result request with
        | None => []
        | Some list =>
            let adjustedStop :=
              if stop <? 0 then Z.of_nat (length list) + stop + 1
              else stop + 1 in
            Array_slice list start adjustedStop
        end).

(** *** Deletion and expiry *)

Definition del (key : string) : M unit :=
  _ ← _performTransaction (P := unit) keyValueStore "readwrite" (fun store =>
        request ← store_delete store key; mret (ReturnsRequest request));
  _ ← _performTransaction (P := unit) hashStore "readwrite" (fun store =>
        request ← store_delete store key; mret (ReturnsRequest request));
  _ ← _performTransaction (P := unit) listStore "readwrite" (fun store =>
        request ← store_delete store key; mret (ReturnsRequest request));
  mret tt.

Definition _setExpiry (key : string) (expireAt : Z) : M (option unit) :=
  _performTransaction (P := unit) expiryStore "readwrite" (fun store =>
    _ ← store_put_record store (ExpiryRecord key expireAt);
    mret ReturnsNothing).

Definition _removeExpiry (key : string) : M (option unit) :=
  _performTransaction (P := unit) expiryStore "readwrite" (fun store =>
    _ ← store_delete store key;
    mret ReturnsNothing).

Definition Date_now : M Z := fun w => (clock w, w).

Definition worker_postMessage (key : string) (expireAt : Z) : M unit :=
  fun w =>
    (tt, World (st_keyValue w) (st_hash w) (st_list w) (st_expiry w)
               (writes w) (clock w) (inbox w ++ [(key, expireAt)])
               (timers w)).

Definition expire (key : string) (seconds : Z) : M unit :=
  now ← Date_now;
  let expireAt := now + seconds * 1000 in
  _ ← _setExpiry key expireAt;
  worker_postMessage key expireAt.

Definition _checkKeyExists (key : string) : M bool :=
  let positive (exists_ : option Z) :=
    match exists_ with Some n => 0 <? n | None => false end in
  (* for (const storeName of ['keyValue', 'hash', 'list']) *)
  exists_ ← _performTransaction (P := unit) keyValueStore "readonly"
    (fun store => request ← store_count store key;
                  mret (ReturnsRequest request));
  if positive exists_ then mret true else
  exists_ ← _performTransaction (P := unit) hashStore "readonly"
    (fun store => request ← store_count store key;
                  mret (ReturnsRequest request));
  if positive exists_ then mret true else
  exists_ ← _performTransaction (P := unit) listStore "readonly"
    (fun store => request ← store_count store key;
                  mret (ReturnsRequest request));
  if positive exists_ then mret true else
  mret false.

(** The values the callback of [ttl] computes with. *)
Inductive js : Type :=
| JUndefined
| JNumber (n : number)
| JRecord (r : expiryRecord)
| JRequest (request : IDBRequest expiryRecord).

(** [await x]: none of these values is a thenable, so the expression
    evaluates to [x] itself. *)
Definition await (x : js) : js := x.

Definition ToBoolean (x : js) : bool :=
  match x with
  | JUndefined => false
  | JNumber (Num z) => negb (z =? 0)
  | JNumber NaN => false
  | JRecord _ => true
  | JRequest _ => true
  end.

Definition ToNumber (x : js) : number :=
  match x with
  | JNumber n => n
  | _ => NaN
  end.

(** [x.result]: the record a request found, or [undefined]. *)
Definition js_result (x : js) : js :=
  match x with
  | JRequest request =>
      match result request with
      | Some r => JRecord r
      | None => JUndefined
      end
  | _ => JUndefined
  end.

(** [x.expireAt]: a record has the property; an [IDBRequest] ([result],
    [error], [source], [transaction], [readyState]) and a number have not.
    The callback reads it only from a truthy value. *)
Definition js_expireAt (x : js) : js :=
  match x with
  | JRecord r => JNumber (Num (expireAt r))
  | _ => JUndefined
  end.

(** The async callback of [ttl] from [expiryData] on; what it returns
    settles the Promise the callback evaluates to. *)
Definition ttl_body (key : string) (expiryData : js)
  : M (returned number number) :=
  if negb (ToBoolean expiryData) then
    keyExists ← _checkKeyExists key;
    mret (ReturnsPromise (if keyExists : bool then Num (-1) else Num (-2)))
  else
    now ← Date_now;
    let remainingTime :=
      Math_ceil_div (js_minus (ToNumber (js_expireAt expiryData)) (Num now))
                    1000 in
    mret (ReturnsPromise
            (if js_gt remainingTime 0 then remainingTime else Num (-2))).

(** The callback [ttl] hands to [_performTransaction]:
    [const expiryData = await store.get(key)], then the body. *)
Definition ttl_callback (key : string) (store : objectStore expiryRecord)
  : M (returned number number) :=
  request ← store_get store key;
  ttl_body key (await (JRequest request)).

Definition ttl (key : string) : M (option number) :=
  _performTransaction expiryStore "readonly" (ttl_callback key).

(** *** The expiry worker *)

(** The worker's [onmessage]: take the oldest posted message and arm a
    timer for it.  [setTimeout] converts the delay to a [long] and treats
    a negative one as zero. *)
Definition worker_onmessage (w : world) : option world :=
  match inbox w with
  | [] => None
  | (key, expireAt) :: rest =>
      let now := clock w in
      let timeout := expireAt - now in
      Some (World (st_keyValue w) (st_hash w) (st_list w) (st_expiry w)
                  (writes w) (clock w) rest
                  (timers w ++ [(key, now + Z.max (ToInt32 timeout) 0)]))
  end.

(** The message a fired timer posts back, [{ key, action: 'delete' }]. *)
Definition timer_message (key : string) : string * string := (key, "delete").

(** The engine's [worker.onmessage]. *)
Definition onmessage (data : string * string) : M unit :=
  let '(key, action) := data in
  if bool_decide (action = "delete") then
    _ ← del key;
    _ ← _removeExpiry key;
    mret tt
  else mret tt.

Definition remove_timer (i : nat) (w : world) : world :=
  World (st_keyValue w) (st_hash w) (st_list w) (st_expiry w)
        (writes w) (clock w) (inbox w) (delete i (timers w)).

Definition advance (dt : Z) (w : world) : world :=
  World (st_keyValue w) (st_hash w) (st_list w) (st_expiry w)
        (writes w) (clock w + dt) (inbox w) (timers w).

(** What happens without a caller: time passes, the worker receives a
    posted message, or a due timer fires and the engine handles its
    message. *)
Inductive background : world -> world -> Prop :=
| bg_time (w : world) (dt : Z) :
    0 <= dt -> background w (advance dt w)
| bg_receive (w w' : world) :
    worker_onmessage w = Some w' -> background w w'
| bg_fire (w : world) (i : nat) (key : string) (due : Z) :
    timers w !! i = Some (key, due) ->
    due <= clock w ->
    background w (world_after (onmessage (timer_message key))
                              (remove_timer i w)).

End MindexDB.

(** * States and reference results

    Updates of single components of the world, the predicate that a key
    holds a value, the result [ttl] is documented to give, and the concrete
    databases the examples run on. *)

Import MindexDB.

Definition with_keyValue (m : gmap string value) (w : world) : world :=
  replace_contents keyValueStore m w.
Definition with_hash (m : gmap string (gmap string value)) (w : world)
  : world := replace_contents hashStore m w.
Definition with_list (m : gmap string (list value)) (w : world) : world :=
  replace_contents listStore m w.
Definition with_expiry (m : gmap string expiryRecord) (w : world) : world :=
  replace_contents expiryStore m w.
Definition logged (ws : list write) (w : world) : world :=
  World (st_keyValue w) (st_hash w) (st_list w) (st_expiry w)
        (writes w ++ ws) (clock w) (inbox w) (timers w).

(** The key holds a value in one of the three value stores. *)
Definition holds_value (key : string) (w : world) : Prop :=
  is_Some (st_keyValue w !! key) \/ is_Some (st_hash w !! key) \/
  is_Some (st_list w !! key).

Definition with_clock (now : Z) (w : world) : world :=
  World (st_keyValue w) (st_hash w) (st_list w) (st_expiry w)
        (writes w) now (inbox w) (timers w).

(** The result the documentation of [ttl] describes: -2 for a key with
    neither Expiry Record nor value, -1 for a key with a value and no
    Expiry Record, otherwise the remaining seconds rounded up, or -2 once
    they are not positive. *)
Definition ttl_documented (key : string) (w : world) : number :=
  match st_expiry w !! key with
  | None => if bool_decide (holds_value key w) then Num (-1) else Num (-2)
  | Some r =>
      let remainingTime :=
        Math_ceil_div (js_minus (Num (expireAt r)) (Num (clock w))) 1000 in
      if js_gt remainingTime 0 then remainingTime else Num (-2)
  end.

Definition empty_world : world := World ∅ ∅ ∅ ∅ [] 0 [] [].

Definition xyz : list value := [VStr "x"; VStr "y"; VStr "z"].

(** The database after [rpush('k', 'x', 'y', 'z')]. *)
Definition world_xyz : world := world_after (rpush "k" xyz) empty_world.

(** The database after [set('k', 1)] and [expire('k', 0)], before the
    worker has answered. *)
Definition world_expired : world :=
  world_after (_ ← set "k" (VNum 1); expire "k" 0) empty_world.

(** The same once the worker has armed its timer. *)
Definition world_armed : world :=
  default world_expired (worker_onmessage world_expired).

(** * Sessions

    Sequences of calls of the public methods, repeated pops, and the worlds
    a session reaches from a fresh database. *)

Inductive call : Type :=
| Call_set (key : string) (v : value)
| Call_get (key : string)
| Call_hset (hash key : string) (v : value)
| Call_hget (hash key : string)
| Call_lpush (key : string) (values : list value)
| Call_rpush (key : string) (values : list value)
| Call_lpop (key : string)
| Call_rpop (key : string)
| Call_lrange (key : string) (start stop : Z)
| Call_del (key : string)
| Call_expire (key : string) (seconds : Z)
| Call_ttl (key : string).

Definition run_call (c : call) (w : world) : world :=
  match c with
  | Call_set key v => world_after (set key v) w
  | Call_get key => world_after (get key) w
  | Call_hset hash key v => world_after (hset hash key v) w
  | Call_hget hash key => world_after (hget hash key) w
  | Call_lpush key values => world_after (lpush key values) w
  | Call_rpush key values => world_after (rpush key values) w
  | Call_lpop key => world_after (lpop key) w
  | Call_rpop key => world_after (rpop key) w
  | Call_lrange key start stop => world_after (lrange key start stop) w
  | Call_del key => world_after (del key) w
  | Call_expire key seconds => world_after (expire key seconds) w
  | Call_ttl key => world_after (ttl key) w
  end.

Definition run_calls (calls : list call) (w : world) : world :=
  foldl (fun w c => run_call c w) w calls.

(** [n] calls of [lpop(key)], respectively [rpop(key)], one after the
    other; the items they resolve with, in the order of the calls. *)
Fixpoint lpop_times (n : nat) (key : string) : M (list value) :=
  match n with
  | O => mret []
  | S n' =>
      item ← lpop key;
      items ← lpop_times n' key;
      mret (item :: items)
  end.

Fixpoint rpop_times (n : nat) (key : string) : M (list value) :=
  match n with
  | O => mret []
  | S n' =>
      item ← rpop key;
      items ← rpop_times n' key;
      mret (item :: items)
  end.

(** The worker holds a message or a timer for the key. *)
Definition scheduled (key : string) (w : world) : Prop :=
  (exists t, (key, t) ∈ inbox w) \/ (exists due, (key, due) ∈ timers w).

(** Every Expiry Record is stored under its own key and has a message or
    a timer waiting for it. *)
Definition expiry_scheduled (w : world) : Prop :=
  forall key r,
    st_expiry w !! key = Some r -> recordKey r = key /\ scheduled key w.

(** The worlds of a session that starts on a fresh database. *)
Inductive reachable : world -> Prop :=
| reach_start : reachable empty_world
| reach_call (w : world) (c : call) :
    reachable w -> reachable (run_call c w)
| reach_background (w w' : world) :
    reachable w -> background w w' -> reachable w'.

(** A list operation on [key] took the world from [w] to [w']: the three
    other stores and every other list are as they were. *)
Definition only_list_changed (key : string) (w w' : world) : Prop :=
  st_keyValue w' = st_keyValue w /\ st_hash w' = st_hash w /\
  st_expiry w' = st_expiry w /\
  forall key', key' <> key -> st_list w' !! key' = st_list w !! key'.

(** * Opening the database *)



(** How a Promise settles. *)
Inductive settled (A : Type) : Type :=
| Resolved (a : A)
| Rejected (error : string).
Arguments Resolved {A}.
Arguments Rejected {A}.











(** * Properties *)

(** ** What each operation computes *)

Ltac run_engine :=
  unfold result_of, world_after, set, get, hset, hget, lpush, rpush, lpop,
    rpop, lrange, del, _setExpiry, _removeExpiry, expire, _checkKeyExists,
    ttl, ttl_callback, ttl_body, await, onmessage, timer_message,
    _performTransaction, store_put_record, store_get, store_put, store_delete, store_count,
    record_write, Date_now, worker_postMessage;
  unfold mbind, M_bind, mret, M_ret; simpl.

Lemma set_run key v w :
  set key v w =
  (None, logged [Put "keyValue" key]
           (with_keyValue (<[key := v]> (st_keyValue w)) w)).
Proof. reflexivity. Qed.

Lemma get_run key w : get key w = (st_keyValue w !! key, w).
Proof. reflexivity. Qed.

Lemma hset_run hash key v w :
  hset hash key v w =
  (None, logged [Put "hash" hash]
           (with_hash (<[hash := js_assign (default ∅ (st_hash w !! hash))
                                           key v]> (st_hash w)) w)).
Proof. reflexivity. Qed.

Lemma hget_run hash key w :
  hget hash key w =
  (match st_hash w !! hash with
   | Some hashObj =>
       if js_in key hashObj then js_get hashObj key else Data VNull
   | None => Data VNull
   end, w).
Proof. reflexivity. Qed.

Lemma lpush_run key values w :
  lpush key values w =
  let l := values ++ default [] (st_list w !! key) in
  (Z.of_nat (length l),
   logged [Put "list" key] (with_list (<[key := l]> (st_list w)) w)).
Proof. reflexivity. Qed.

Lemma rpush_run key values w :
  rpush key values w =
  let l := default [] (st_list w !! key) ++ values in
  (Z.of_nat (length l),
   logged [Put "list" key] (with_list (<[key := l]> (st_list w)) w)).
Proof. reflexivity. Qed.

Lemma lpop_run key w :
  lpop key w =
  match st_list w !! key with
  | Some (item :: rest) =>
      (item, logged [Put "list" key]
               (with_list (<[key := rest]> (st_list w)) w))
  | _ => (VNull, w)
  end.
Proof.
  run_engine. destruct (st_list w !! key) as [[|item rest]|]; reflexivity.
Qed.

Lemma Array_pop_snoc {A} (l : list A) (x : A) :
  Array_pop (l ++ [x]) = Some (x, l).
Proof.
  unfold Array_pop. rewrite last_snoc. f_equal. f_equal.
  apply removelast_last.
Qed.

Lemma Array_pop_nil {A} : Array_pop (@nil A) = None.
Proof. reflexivity. Qed.

Lemma rpop_run key w :
  rpop key w =
  match Array_pop (default [] (st_list w !! key)) with
  | Some (item, rest) =>
      (item, logged [Put "list" key]
               (with_list (<[key := rest]> (st_list w)) w))
  | None => (VNull, w)
  end.
Proof.
  run_engine. destruct (st_list w !! key) as [l|]; simpl;
    [destruct (Array_pop l) as [[item rest]|]|]; reflexivity.
Qed.

Lemma rpop_run_snoc key w rest item :
  st_list w !! key = Some (rest ++ [item]) ->
  rpop key w =
  (item, logged [Put "list" key]
           (with_list (<[key := rest]> (st_list w)) w)).
Proof.
  intros Hl. run_engine. rewrite Hl. simpl. rewrite Array_pop_snoc.
  reflexivity.
Qed.

Lemma rpop_run_empty key w :
  st_list w !! key = None \/ st_list w !! key = Some [] ->
  rpop key w = (VNull, w).
Proof. intros [Hl|Hl]; run_engine; rewrite Hl; reflexivity. Qed.

Lemma lrange_run key start stop w :
  lrange key start stop w =
  (match st_list w !! key with
   | None => []
   | Some l =>
       Array_slice l start
         (if stop <? 0 then Z.of_nat (length l) + stop + 1 else stop + 1)
   end, w).
Proof. reflexivity. Qed.

Lemma del_run key w :
  del key w =
  (tt, logged [Delete "keyValue" key; Delete "hash" key; Delete "list" key]
         (with_list (delete key (st_list w))
            (with_hash (delete key (st_hash w))
               (with_keyValue (delete key (st_keyValue w)) w)))).
Proof.
  run_engine. unfold logged. simpl. rewrite <- !app_assoc. reflexivity.
Qed.

Lemma _setExpiry_run key t w :
  _setExpiry key t w =
  (None, logged [Put "expiry" key]
           (with_expiry (<[key := ExpiryRecord key t]> (st_expiry w)) w)).
Proof. reflexivity. Qed.

Lemma _removeExpiry_run key w :
  _removeExpiry key w =
  (None, logged [Delete "expiry" key]
           (with_expiry (delete key (st_expiry w)) w)).
Proof. reflexivity. Qed.

Lemma _checkKeyExists_run key w :
  _checkKeyExists key w = (bool_decide (holds_value key w), w).
Proof.
  unfold holds_value. run_engine.
  destruct (st_keyValue w !! key) eqn:Hkv;
    [change (0 <? 1) with true | change (0 <? 0) with false]; cbv beta iota.
  { rewrite bool_decide_eq_true_2; eauto. }
  destruct (st_hash w !! key) eqn:Hh;
    [change (0 <? 1) with true | change (0 <? 0) with false]; cbv beta iota.
  { rewrite bool_decide_eq_true_2; eauto. }
  destruct (st_list w !! key) eqn:Hl;
    [change (0 <? 1) with true | change (0 <? 0) with false]; cbv beta iota.
  { rewrite bool_decide_eq_true_2; eauto. }
  rewrite bool_decide_eq_false_2; [reflexivity|].
  intros [H|[H|H]]; destruct H; discriminate.
Qed.

(** [ttl] resolves with [undefined] whatever the database holds: the async
    callback hands [_performTransaction] a Promise, whose [result] property
    is read. *)
Lemma ttl_run key w : ttl key w = (None, w).
Proof. reflexivity. Qed.

Lemma onmessage_run key w :
  onmessage (timer_message key) w =
  (tt, logged [Delete "keyValue" key; Delete "hash" key; Delete "list" key;
               Delete "expiry" key]
         (with_expiry (delete key (st_expiry w))
            (with_list (delete key (st_list w))
               (with_hash (delete key (st_hash w))
                  (with_keyValue (delete key (st_keyValue w)) w))))).
Proof.
  run_engine. unfold logged, record_write. simpl.
  rewrite <- !app_assoc. reflexivity.
Qed.

(** ** Slices *)

Lemma Array_slice_nil {A} (start end_ : Z) : Array_slice (@nil A) start end_ = [].
Proof. unfold Array_slice. rewrite drop_nil. apply take_nil. Qed.

(** [slice(start, end)] with both bounds inside the array. *)
Lemma Array_slice_inside {A} (l : list A) (start end_ : Z) :
  0 <= start -> start <= end_ -> end_ <= Z.of_nat (length l) ->
  Array_slice l start end_ =
  take (Z.to_nat (end_ - start)) (drop (Z.to_nat start) l).
Proof.
  intros Hs Hse He. unfold Array_slice.
  destruct (Z.ltb_spec start 0); [lia|].
  destruct (Z.ltb_spec end_ 0); [lia|].
  rewrite (Z.min_l start) by lia. rewrite (Z.min_l end_) by lia.
  rewrite Z.max_l by lia. reflexivity.
Qed.

Lemma Array_slice_all {A} (l : list A) :
  Array_slice l 0 (Z.of_nat (length l)) = l.
Proof.
  rewrite Array_slice_inside by lia.
  rewrite Z.sub_0_r, Nat2Z.id. simpl. apply firstn_all.
Qed.

(** [lrange(key, 0, -1)] reads the whole stored list. *)
Lemma lrange_whole key w :
  result_of (lrange key 0 (-1)) w = default [] (st_list w !! key).
Proof.
  unfold result_of. rewrite lrange_run. simpl.
  destruct (st_list w !! key) as [l|]; [|reflexivity]. simpl.
  replace (Z.of_nat (length l) + -1 + 1) with (Z.of_nat (length l)) by lia.
  apply Array_slice_all.
Qed.

(** ** set and get *)

(** C9: [set(k, v)] followed by [get(k)] returns [v]; [set] issues one put
    on the keyValue store and leaves the hash store, the list store and
    the expiry store as they were. *)
Theorem set_then_get (key : string) (v : value) (w : world) :
  let w' := world_after (set key v) w in
  result_of (get key) w' = Some v /\
  st_hash w' = st_hash w /\
  st_list w' = st_list w /\
  st_expiry w' = st_expiry w /\
  writes w' = writes w ++ [Put "keyValue" key].
Proof.
  unfold world_after, result_of. rewrite set_run, get_run. simpl.
  rewrite lookup_insert_eq. repeat split.
Qed.

(** [set] leaves every other scalar key alone. *)
Lemma set_other_key (key key' : string) (v : value) (w : world) :
  key <> key' ->
  result_of (get key') (world_after (set key v) w) = result_of (get key') w.
Proof.
  intros Hne. unfold world_after, result_of. rewrite set_run, !get_run.
  simpl. apply lookup_insert_ne, Hne.
Qed.

(** ** del *)

(** C3: [del(k)] removes [k] from the keyValue, hash and list stores, so
    that [get(k)] is absent, [hget(k, f)] is null for every field [f] and
    [lrange(k, 0, -1)] is empty; the expiry store is unchanged. *)
Theorem del_clears_value_stores (key : string) (w : world) :
  let w' := world_after (del key) w in
  st_keyValue w' !! key = None /\
  st_hash w' !! key = None /\
  st_list w' !! key = None /\
  result_of (get key) w' = None /\
  (forall field, result_of (hget key field) w' = Data VNull) /\
  result_of (lrange key 0 (-1)) w' = [] /\
  st_expiry w' = st_expiry w /\
  writes w' =
    writes w ++ [Delete "keyValue" key; Delete "hash" key; Delete "list" key].
Proof.
  cbv zeta. rewrite lrange_whole. unfold world_after, result_of.
  rewrite get_run. setoid_rewrite hget_run. rewrite del_run. simpl.
  rewrite !lookup_delete_eq. repeat split.
Qed.

(** [del] on a key that holds nothing changes no store. *)
Lemma del_absent_key (key : string) (w : world) :
  ~ holds_value key w ->
  let w' := world_after (del key) w in
  st_keyValue w' = st_keyValue w /\ st_hash w' = st_hash w /\
  st_list w' = st_list w /\ st_expiry w' = st_expiry w.
Proof.
  intros Hn. unfold world_after. rewrite del_run. simpl.
  unfold holds_value in Hn.
  repeat split; apply delete_id;
    match goal with
    | |- ?m !! _ = None =>
        destruct (m !! key) eqn:E; [exfalso; apply Hn; eauto 6 | reflexivity]
    end.
Qed.

(** ** lpush and rpush *)

Lemma lpush_prepends key values w :
  let w' := world_after (lpush key values) w in
  result_of (lrange key 0 (-1)) w' =
    values ++ result_of (lrange key 0 (-1)) w /\
  result_of (lpush key values) w =
    Z.of_nat (length (result_of (lrange key 0 (-1)) w')).
Proof.
  simpl. rewrite !lrange_whole. unfold world_after, result_of.
  rewrite lpush_run. simpl. rewrite lookup_insert_eq. simpl. split; reflexivity.
Qed.

Lemma rpush_appends key values w :
  let w' := world_after (rpush key values) w in
  result_of (lrange key 0 (-1)) w' =
    result_of (lrange key 0 (-1)) w ++ values /\
  result_of (rpush key values) w =
    Z.of_nat (length (result_of (lrange key 0 (-1)) w')).
Proof.
  simpl. rewrite !lrange_whole. unfold world_after, result_of.
  rewrite rpush_run. simpl. rewrite lookup_insert_eq. simpl. split; reflexivity.
Qed.

(** C6: [lpush(k, a, b, c)] puts the block [a, b, c] in front of the prior
    contents, [a] at index 0; [rpush(k, a, b, c)] on an absent key leaves
    exactly [a, b, c]; both return the length of the list they wrote. *)
Theorem push_blocks (key : string) (a b c : value) (w : world) :
  (let w' := world_after (lpush key [a; b; c]) w in
   result_of (lrange key 0 (-1)) w' =
     [a; b; c] ++ result_of (lrange key 0 (-1)) w /\
   result_of (lrange key 0 (-1)) w' !! 0%nat = Some a /\
   result_of (lpush key [a; b; c]) w =
     Z.of_nat (length (result_of (lrange key 0 (-1)) w'))) /\
  (st_list w !! key = None ->
   let w' := world_after (rpush key [a; b; c]) w in
   result_of (lrange key 0 (-1)) w' = [a; b; c] /\
   result_of (rpush key [a; b; c]) w = 3 /\
   result_of (rpush key [a; b; c]) w =
     Z.of_nat (length (result_of (lrange key 0 (-1)) w'))).
Proof.
  split.
  - destruct (lpush_prepends key [a; b; c] w) as [Hl Hn]. simpl in Hl, Hn.
    simpl. rewrite Hn, Hl. repeat split.
  - intros Habs.
    destruct (rpush_appends key [a; b; c] w) as [Hl Hn]. simpl in Hl, Hn.
    simpl. rewrite Hn, Hl. rewrite lrange_whole, Habs. repeat split.
Qed.

(** ** lpop and rpop *)

Lemma nonempty_snoc {A} (l : list A) :
  l <> [] -> exists rest item, l = rest ++ [item].
Proof.
  intros Hne. destruct (exists_last Hne) as (rest & item & ->).
  exists rest, item. reflexivity.
Qed.

(** C7: on an absent or empty list [lpop] and [rpop] return null and leave
    the database and its write log untouched; on a list of length [n > 0]
    they return the first, respectively last, element and put back the
    remaining [n - 1] elements. *)
Theorem pop_null_or_one (key : string) (w : world) :
  (st_list w !! key = None \/ st_list w !! key = Some [] ->
   lpop key w = (VNull, w) /\ rpop key w = (VNull, w)) /\
  (forall l : list value,
   st_list w !! key = Some l -> l <> [] ->
   (exists item rest,
      l = item :: rest /\
      result_of (lpop key) w = item /\
      st_list (world_after (lpop key) w) !! key = Some rest /\
      length l = S (length rest) /\
      writes (world_after (lpop key) w) = writes w ++ [Put "list" key]) /\
   (exists item rest,
      l = rest ++ [item] /\
      result_of (rpop key) w = item /\
      st_list (world_after (rpop key) w) !! key = Some rest /\
      length l = S (length rest) /\
      writes (world_after (rpop key) w) = writes w ++ [Put "list" key])).
Proof.
  split.
  - intros Hl. split; [|apply rpop_run_empty, Hl].
    rewrite lpop_run. destruct Hl as [-> | ->]; reflexivity.
  - intros l Hl Hne. split.
    + destruct l as [|item rest]; [congruence|].
      exists item, rest. unfold result_of, world_after.
      rewrite lpop_run, Hl. simpl. rewrite lookup_insert_eq. repeat split.
    + destruct (nonempty_snoc l Hne) as (rest & item & ->).
      exists item, rest. unfold result_of, world_after.
      rewrite (rpop_run_snoc key w rest item Hl). simpl.
      rewrite lookup_insert_eq, length_app. simpl.
      repeat split. lia.
Qed.

(** ** lrange *)

Ltac slice_cases :=
  unfold Array_slice;
  repeat match goal with
         | |- context [?a <? ?b] => destruct (Z.ltb_spec a b)
         end;
  try lia.

Ltac same_slice :=
  slice_cases;
  match goal with
  | |- take ?a (drop ?b _) = take ?c (drop ?d _) =>
      replace a with c by lia; replace b with d by lia; reflexivity
  end.

Lemma Array_slice_start_beyond {A} (l : list A) (start end_ : Z) :
  Z.of_nat (length l) <= start -> Array_slice l start end_ = [].
Proof.
  intros Hs. slice_cases;
    rewrite (Z.min_r start) by lia; rewrite Nat2Z.id, drop_all;
    apply take_nil.
Qed.

Lemma length_Array_slice_inside {A} (l : list A) (start end_ : Z) :
  0 <= start -> start <= end_ -> end_ <= Z.of_nat (length l) ->
  Z.of_nat (length (Array_slice l start end_)) = end_ - start.
Proof.
  intros Hs Hse He. rewrite Array_slice_inside by lia.
  rewrite length_take, length_drop. lia.
Qed.

(** C5, as the code has it: a negative [stop] down to [-L] counts from the
    end, so that [lrange(k, 0, -1)] is the whole list; the slice includes
    index [stop]; a [stop] at or beyond [L] acts as [L - 1] and a [start]
    at or below [-L] acts as [0]; a [start] at or beyond [L] gives the
    empty list. *)
Theorem lrange_slice (key : string) (l : list value) (start stop : Z)
    (w : world) :
  st_list w !! key = Some l ->
  let L := Z.of_nat (length l) in
  let range := fun a b => result_of (lrange key a b) w in
  (- L <= stop < 0 -> range start stop = range start (L + stop)) /\
  range 0 (-1) = l /\
  (0 <= start <= stop -> stop < L ->
     range start stop =
       take (Z.to_nat (stop - start + 1)) (drop (Z.to_nat start) l) /\
     Z.of_nat (length (range start stop)) = stop - start + 1) /\
  (L <= stop -> range start stop = range start (L - 1)) /\
  (start <= - L -> range start stop = range 0 stop) /\
  (L <= start -> range start stop = []).
Proof.
  intros Hl L range. subst range. cbv beta.
  rewrite lrange_whole. unfold result_of. rewrite !lrange_run. simpl.
  rewrite Hl. simpl. fold L.
  split; [|split; [|split; [|split; [|split]]]].
  - intros Hneg. subst L. same_slice.
  - reflexivity.
  - intros Hs Hst.
    destruct (Z.ltb_spec stop 0); [lia|]. split.
    + rewrite Array_slice_inside by (fold L; lia). do 2 f_equal. lia.
    + rewrite length_Array_slice_inside by (fold L; lia). lia.
  - intros Hst. subst L. same_slice.
  - intros Hs. subst L. same_slice.
  - intros Hs. apply Array_slice_start_beyond. fold L. lia.
Qed.

(** On an absent key [lrange] resolves with the empty list. *)
Lemma lrange_absent (key : string) (start stop : Z) (w : world) :
  st_list w !! key = None -> result_of (lrange key start stop) w = [].
Proof. intros Hl. unfold result_of. rewrite lrange_run, Hl. reflexivity. Qed.

(** ** hset and hget *)

Lemma hget_absent_hash (hash key : string) (w : world) :
  st_hash w !! hash = None -> result_of (hget hash key) w = Data VNull.
Proof. intros Hh. unfold result_of. rewrite hget_run, Hh. reflexivity. Qed.

(** A field the record lacks reads as null, unless [Object.prototype] has
    a member of that name. *)
Lemma hget_missing_field (hash key : string) (obj : gmap string value)
    (w : world) :
  st_hash w !! hash = Some obj -> obj !! key = None ->
  result_of (hget hash key) w =
    if inherited key then Inherited key else Data VNull.
Proof.
  intros Hh Hf. unfold result_of. rewrite hget_run, Hh. simpl.
  unfold js_in, js_get. rewrite Hf.
  rewrite bool_decide_eq_false_2 by (intros [? ?]; discriminate).
  simpl. destruct (inherited key); reflexivity.
Qed.

Lemma hget_own_field (hash key : string) (obj : gmap string value)
    (v : value) (w : world) :
  st_hash w !! hash = Some obj -> obj !! key = Some v ->
  result_of (hget hash key) w = Data v.
Proof.
  intros Hh Hf. unfold result_of. rewrite hget_run, Hh. simpl.
  unfold js_in, js_get. rewrite Hf.
  rewrite bool_decide_eq_true_2 by eauto. reflexivity.
Qed.

(** [hset] then [hget] gives the value back for every field name but
    ["__proto__"]. *)
Lemma hset_then_hget (hash key : string) (v : value) (w : world) :
  key <> "__proto__" ->
  result_of (hget hash key) (world_after (hset hash key v) w) = Data v.
Proof.
  intros Hk.
  apply hget_own_field
    with (obj := js_assign (default ∅ (st_hash w !! hash)) key v).
  - unfold world_after. rewrite hset_run. simpl. apply lookup_insert_eq.
  - unfold js_assign. rewrite bool_decide_eq_false_2 by exact Hk.
    apply lookup_insert_eq.
Qed.

(** [hset(h, "__proto__", v)] stores no field. *)
Lemma hset_proto_stores_nothing (hash : string) (v : value) (w : world) :
  st_hash (world_after (hset hash "__proto__" v) w) !! hash =
    Some (default ∅ (st_hash w !! hash)).
Proof. unfold world_after. rewrite hset_run. simpl. apply lookup_insert_eq. Qed.

(** C8, at the inputs where the code departs from it: a record that lacks
    the field ["toString"] answers [hget] with the inherited member, not
    null, and the value set under ["__proto__"] is not the one read back. *)
Theorem hget_inherited_names :
  let w := world_after (hset "h" "a" (VNum 1)) empty_world in
  (exists obj, st_hash w !! "h" = Some obj /\ obj !! "toString" = None) /\
  result_of (hget "h" "toString") w = Inherited "toString" /\
  result_of (hget "h" "toString") w <> Data VNull /\
  result_of (hget "h" "__proto__")
    (world_after (hset "h" "__proto__" (VNum 1)) empty_world)
  = Inherited "__proto__".
Proof.
  simpl. split; [|split; [|split]].
  - eexists. split; vm_compute; reflexivity.
  - vm_compute. reflexivity.
  - vm_compute. discriminate.
  - vm_compute. reflexivity.
Qed.

(** ** ttl *)

(** The Promise of the callback settles with -2 on every database. *)
Lemma ttl_callback_settles (key : string) (w : world) :
  ttl_callback key expiryStore w = (ReturnsPromise (Num (-2)), w).
Proof. reflexivity. Qed.

(** Had the callback read [result] off the request it awaits, its Promise
    would settle with the documented answer. *)
Lemma ttl_body_on_result (key : string) (w : world) :
  ttl_body key (js_result (JRequest (Request (st_expiry w !! key)))) w =
  (ReturnsPromise (ttl_documented key w), w).
Proof.
  unfold ttl_body, ttl_documented. simpl.
  destruct (st_expiry w !! key) as [r|]; simpl.
  - reflexivity.
  - unfold mbind, M_bind. rewrite _checkKeyExists_run. reflexivity.
Qed.

(** [ttl] resolves with [undefined] on every database. *)
Lemma ttl_resolves_undefined (key : string) (w : world) :
  result_of (ttl key) w = None /\ world_after (ttl key) w = w.
Proof. split; reflexivity. Qed.

(** C2, at a key that was set and never given a TTL: the documented answer
    is -1, the code resolves with [undefined]. *)
Theorem ttl_of_set_key :
  let w := world_after (set "k" (VNum 1)) empty_world in
  st_expiry w !! "k" = None /\
  holds_value "k" w /\
  ttl_documented "k" w = Num (-1) /\
  result_of (ttl "k") w = None.
Proof.
  simpl. split; [|split; [|split]].
  - vm_compute. reflexivity.
  - left. vm_compute. eauto.
  - vm_compute. reflexivity.
  - reflexivity.
Qed.

(** A key with an Expiry Record 1500 ms ahead: the documented answer is 2
    seconds, the code resolves with [undefined]. *)
Lemma ttl_of_expiring_key :
  let w := world_after (_ ← set "k" (VNum 1); expire "k" 2) empty_world in
  let later := advance 500 w in
  ttl_documented "k" later = Num 2 /\ result_of (ttl "k") later = None.
Proof. split; vm_compute; reflexivity. Qed.

(** C10: popping the only element writes the empty array back, so the key
    is still counted by [_checkKeyExists] and [lrange] gives the empty
    list; [ttl], which would answer -1 as documented, resolves with
    [undefined]. *)
Theorem pop_last_element (key : string) (x : value) (w : world) :
  st_list w !! key = Some [x] ->
  st_expiry w !! key = None ->
  (let w' := world_after (lpop key) w in
   st_list w' !! key = Some [] /\
   result_of (_checkKeyExists key) w' = true /\
   result_of (lrange key 0 (-1)) w' = [] /\
   ttl_documented key w' = Num (-1) /\
   result_of (ttl key) w' = None) /\
  (let w' := world_after (rpop key) w in
   st_list w' !! key = Some [] /\
   result_of (_checkKeyExists key) w' = true /\
   result_of (lrange key 0 (-1)) w' = [] /\
   ttl_documented key w' = Num (-1) /\
   result_of (ttl key) w' = None).
Proof.
  intros Hl He.
  assert (Hafter : forall w' : world,
            st_list w' !! key = Some [] -> st_expiry w' !! key = None ->
            st_list w' !! key = Some [] /\
            result_of (_checkKeyExists key) w' = true /\
            result_of (lrange key 0 (-1)) w' = [] /\
            ttl_documented key w' = Num (-1) /\
            result_of (ttl key) w' = None).
  { intros w' Hl' He'. split; [exact Hl'|].
    assert (Hv : holds_value key w') by (right; right; rewrite Hl'; eauto).
    split; [|split; [|split]].
    - unfold result_of. rewrite _checkKeyExists_run. simpl.
      apply bool_decide_eq_true_2, Hv.
    - rewrite lrange_whole, Hl'. reflexivity.
    - unfold ttl_documented. rewrite He'.
      rewrite bool_decide_eq_true_2 by exact Hv. reflexivity.
    - reflexivity. }
  split; cbv zeta; apply Hafter; unfold world_after.
  - rewrite lpop_run, Hl. simpl. apply lookup_insert_eq.
  - rewrite lpop_run, Hl. simpl. exact He.
  - rewrite (rpop_run_snoc key w [] x Hl). simpl. apply lookup_insert_eq.
  - rewrite (rpop_run_snoc key w [] x Hl). simpl. exact He.
Qed.

(** ** Expiry *)

Lemma handler_is_del_then_removeExpiry (key : string) (w : world) :
  world_after (onmessage (timer_message key)) w =
  world_after (_ ← del key; _removeExpiry key) w.
Proof.
  unfold world_after. rewrite onmessage_run.
  unfold mbind, M_bind. rewrite del_run, _removeExpiry_run.
  unfold logged. simpl. rewrite <- app_assoc. reflexivity.
Qed.

(** After the handler of the delete event, the key is in no store. *)
Lemma handler_clears_key (key : string) (w : world) :
  let w' := world_after (onmessage (timer_message key)) w in
  st_keyValue w' !! key = None /\ st_hash w' !! key = None /\
  st_list w' !! key = None /\ st_expiry w' !! key = None.
Proof.
  unfold world_after. rewrite onmessage_run. simpl.
  rewrite !lookup_delete_eq. repeat split.
Qed.

(** C4: when the timer armed for [key] is due and fires, the engine handles
    its delete message by [del(key)] followed by [_removeExpiry(key)]: four
    delete requests in that order, after which [key] is in none of the
    three value stores and has no Expiry Record. *)
Theorem timer_fires_delete (w : world) (i : nat) (key : string) (due : Z) :
  timers w !! i = Some (key, due) ->
  due <= clock w ->
  let w' := world_after (_ ← del key; _removeExpiry key) (remove_timer i w) in
  background w w' /\
  writes w' =
    writes w ++ [Delete "keyValue" key; Delete "hash" key;
                 Delete "list" key; Delete "expiry" key] /\
  st_keyValue w' !! key = None /\
  st_hash w' !! key = None /\
  st_list w' !! key = None /\
  st_expiry w' !! key = None.
Proof.
  intros Ht Hdue w'. subst w'.
  rewrite <- handler_is_del_then_removeExpiry.
  split; [exact (bg_fire w i key due Ht Hdue)|].
  split.
  - unfold world_after. rewrite onmessage_run. reflexivity.
  - apply handler_clears_key.
Qed.

(** The worker gets through its inbox: every posted message ends up as an
    armed timer, and nothing else changes. *)
Lemma worker_drains_inbox (w : world) :
  exists w',
    rtc background w w' /\ inbox w' = [] /\
    st_keyValue w' = st_keyValue w /\ st_hash w' = st_hash w /\
    st_list w' = st_list w /\ st_expiry w' = st_expiry w /\
    clock w' = clock w /\
    timers w' =
      timers w ++
      ((fun m : string * Z =>
          (m.1, clock w + Z.max (ToInt32 (m.2 - clock w)) 0))
         <$> inbox w).
Proof.
  remember (inbox w) as msgs eqn:Hmsgs. revert w Hmsgs.
  induction msgs as [|[key t] rest IH]; intros w Hmsgs.
  - exists w. rewrite app_nil_r. repeat split; [apply rtc_refl | congruence].
  - set (w1 := World (st_keyValue w) (st_hash w) (st_list w) (st_expiry w)
                     (writes w) (clock w) rest
                     (timers w ++
                      [(key, clock w + Z.max (ToInt32 (t - clock w)) 0)])).
    assert (Hstep : worker_onmessage w = Some w1).
    { unfold worker_onmessage. rewrite <- Hmsgs. reflexivity. }
    destruct (IH w1 eq_refl)
      as (w' & Hrtc & Hin & Hkv & Hh & Hl & He & Hc & Ht).
    exists w'. simpl in *.
    split; [eapply rtc_l; [exact (bg_receive w w1 Hstep) | exact Hrtc]|].
    repeat split; try assumption.
    rewrite Ht, <- app_assoc. reflexivity.
Qed.

(** [expire(key, seconds)] leads, without any further call, to a world
    where [key] has neither value nor Expiry Record. *)
Lemma expire_deletes_eventually (key : string) (seconds : Z) (w : world) :
  exists w',
    rtc background (world_after (expire key seconds) w) w' /\
    ~ holds_value key w' /\ st_expiry w' !! key = None.
Proof.
  set (w1 := world_after (expire key seconds) w).
  destruct (worker_drains_inbox w1)
    as (w2 & Hrtc & _ & _ & _ & _ & _ & Hc & Ht).
  assert (Hin : inbox w1 = inbox w ++ [(key, clock w + seconds * 1000)])
    by reflexivity.
  rewrite Hin, fmap_app, app_assoc in Ht. simpl in Ht.
  match type of Ht with
  | _ = ?pre ++ [(_, ?d)] => set (before := pre) in Ht; set (due := d) in Ht
  end.
  set (dt := Z.max (due - clock w2) 0).
  set (w3 := advance dt w2).
  assert (Ht3 : timers w3 !! length before = Some (key, due)).
  { simpl. rewrite Ht. apply list_lookup_middle. reflexivity. }
  assert (Hdue : due <= clock w3) by (simpl; unfold dt; lia).
  eexists. split.
  - eapply rtc_trans; [exact Hrtc|].
    eapply rtc_l; [apply (bg_time w2 dt); unfold dt; lia|].
    eapply rtc_l; [exact (bg_fire w3 _ key due Ht3 Hdue)|].
    apply rtc_refl.
  - destruct (handler_clears_key key (remove_timer (length before) w3))
      as (Hkv & Hh & Hl & He).
    split; [|exact He].
    unfold holds_value. rewrite Hkv, Hh, Hl.
    intros [H|[H|H]]; destruct H; discriminate.
Qed.

(** C1, as the code has it: no read looks at the expiry store or at the
    clock.  [get], [hget], [lrange], [lpop] and [rpop] answer the same
    whatever Expiry Records exist and whatever the time is, and leave the
    expiry store as it was; a key is read as absent once the delete event
    of its timer has been handled. *)
Theorem reads_ignore_expiry (key field : string) (start stop : Z)
    (records : gmap string expiryRecord) (now : Z) (w : world) :
  (let w1 := with_clock now (with_expiry records w) in
   result_of (get key) w1 = result_of (get key) w /\
   result_of (hget key field) w1 = result_of (hget key field) w /\
   result_of (lrange key start stop) w1 =
     result_of (lrange key start stop) w /\
   result_of (lpop key) w1 = result_of (lpop key) w /\
   result_of (rpop key) w1 = result_of (rpop key) w) /\
  (st_expiry (world_after (get key) w) = st_expiry w /\
   st_expiry (world_after (hget key field) w) = st_expiry w /\
   st_expiry (world_after (lrange key start stop) w) = st_expiry w /\
   st_expiry (world_after (lpop key) w) = st_expiry w /\
   st_expiry (world_after (rpop key) w) = st_expiry w) /\
  (let w2 := world_after (onmessage (timer_message key)) w in
   st_expiry w2 !! key = None /\
   ~ holds_value key w2 /\
   result_of (get key) w2 = None /\
   result_of (hget key field) w2 = Data VNull /\
   result_of (lrange key start stop) w2 = [] /\
   result_of (lpop key) w2 = VNull /\
   result_of (rpop key) w2 = VNull).
Proof.
  split; [|split].
  - cbv zeta. unfold result_of.
    rewrite !get_run, !hget_run, !lrange_run, !lpop_run. simpl.
    repeat split.
    + destruct (st_list w !! key) as [[|item rest]|]; reflexivity.
    + rewrite !rpop_run. simpl.
      destruct (Array_pop (default [] (st_list w !! key)))
        as [[item rest]|]; reflexivity.
  - unfold world_after.
    rewrite get_run, hget_run, lrange_run, lpop_run. simpl.
    repeat split.
    + destruct (st_list w !! key) as [[|item rest]|]; reflexivity.
    + rewrite !rpop_run. simpl.
      destruct (Array_pop (default [] (st_list w !! key)))
        as [[item rest]|]; reflexivity.
  - cbv zeta.
    destruct (handler_clears_key key w) as (Hkv & Hh & Hl & He).
    set (w2 := world_after (onmessage (timer_message key)) w) in *.
    split; [exact He|]. split.
    { unfold holds_value. rewrite Hkv, Hh, Hl.
      intros [H|[H|H]]; destruct H; discriminate. }
    split; [unfold result_of; rewrite get_run; exact Hkv|].
    split; [apply hget_absent_hash, Hh|].
    split; [apply lrange_absent, Hl|].
    split.
    + unfold result_of. rewrite lpop_run, Hl. reflexivity.
    + unfold result_of. rewrite rpop_run_empty by (left; exact Hl).
      reflexivity.
Qed.

(** ** Witnesses and counterexamples *)

(** C1 fails as stated: ['k'] has an Expiry Record with [expireAt <= now],
    and [get('k')] still resolves with the value and removes neither the
    value nor the record. *)
Lemma expired_key_read_as_live :
  (exists r, st_expiry world_expired !! "k" = Some r /\
             expireAt r <= clock world_expired) /\
  result_of (get "k") world_expired = Some (VNum 1) /\
  st_keyValue (world_after (get "k") world_expired) !! "k" = Some (VNum 1) /\
  is_Some (st_expiry (world_after (get "k") world_expired) !! "k").
Proof.
  split; [|split; [|split]].
  - exists (ExpiryRecord "k" 0). split; [vm_compute; reflexivity|].
    vm_compute. discriminate.
  - vm_compute. reflexivity.
  - vm_compute. reflexivity.
  - exists (ExpiryRecord "k" 0). vm_compute. reflexivity.
Qed.

(** C5 fails as stated: on a list of length 3, [stop = -4] is negative, yet
    [lrange(k, 0, -4)] is empty while [lrange(k, 0, 3 + -4)] is the whole
    list. *)
Lemma lrange_stop_below_minus_length :
  st_list world_xyz !! "k" = Some xyz /\
  Z.of_nat (length xyz) = 3 /\
  -4 < 0 /\
  result_of (lrange "k" 0 (-4)) world_xyz = [] /\
  result_of (lrange "k" 0 (3 + -4)) world_xyz = xyz /\
  result_of (lrange "k" 0 (-4)) world_xyz <>
    result_of (lrange "k" 0 (3 + -4)) world_xyz.
Proof.
  split; [vm_compute; reflexivity|].
  split; [reflexivity|].
  split; [reflexivity|].
  split; [vm_compute; reflexivity|].
  split; [vm_compute; reflexivity|].
  vm_compute. discriminate.
Qed.

(** The examples of the specification. *)
Example lrange_examples :
  result_of (lrange "k" 0 (-1)) world_xyz = xyz /\
  result_of (lrange "k" 1 1) world_xyz = [VStr "y"] /\
  result_of (lrange "k" 5 10) world_xyz = [].
Proof. repeat split. Qed.

(** A [stop] below [-L - 1] makes [adjustedStop] negative, and [slice]
    counts it from the end once more. *)
Example lrange_stop_wraps_twice :
  result_of (lrange "k" 0 (-5)) world_xyz = [VStr "x"; VStr "y"].
Proof. reflexivity. Qed.

(** [lrange_slice] on the list [x, y, z]. *)
Lemma lrange_slice_witness :
  st_list world_xyz !! "k" = Some xyz /\
  result_of (lrange "k" 1 (-2)) world_xyz =
    result_of (lrange "k" 1 (3 + -2)) world_xyz /\
  result_of (lrange "k" 0 (-1)) world_xyz = xyz /\
  result_of (lrange "k" 1 7) world_xyz =
    result_of (lrange "k" 1 (3 - 1)) world_xyz /\
  result_of (lrange "k" 5 10) world_xyz = [].
Proof.
  assert (Hl : st_list world_xyz !! "k" = Some xyz)
    by (vm_compute; reflexivity).
  split; [exact Hl|].
  split; [apply (lrange_slice "k" xyz 1 (-2) world_xyz Hl); simpl; lia|].
  split; [apply (lrange_slice "k" xyz 0 0 world_xyz Hl)|].
  split; [apply (lrange_slice "k" xyz 1 7 world_xyz Hl); simpl; lia|].
  apply (lrange_slice "k" xyz 5 10 world_xyz Hl); simpl; lia.
Defined.

(** [push_blocks] with [rpush('k', 1, 2, 3)] on the empty database. *)
Lemma push_blocks_witness :
  st_list empty_world !! "k" = None /\
  result_of (lrange "k" 0 (-1))
    (world_after (rpush "k" [VNum 1; VNum 2; VNum 3]) empty_world)
  = [VNum 1; VNum 2; VNum 3] /\
  result_of (rpush "k" [VNum 1; VNum 2; VNum 3]) empty_world = 3.
Proof.
  assert (Habs : st_list empty_world !! "k" = None) by reflexivity.
  split; [exact Habs|].
  destruct (proj2 (push_blocks "k" (VNum 1) (VNum 2) (VNum 3) empty_world)
              Habs) as (Hr & Hn & _).
  split; [exact Hr | exact Hn].
Defined.

(** [pop_null_or_one] on the list [x, y, z] and on the empty database. *)
Lemma pop_null_or_one_witness :
  st_list world_xyz !! "k" = Some xyz /\
  xyz <> [] /\
  (exists item rest,
     xyz = item :: rest /\
     result_of (lpop "k") world_xyz = item /\
     st_list (world_after (lpop "k") world_xyz) !! "k" = Some rest /\
     length xyz = S (length rest) /\
     writes (world_after (lpop "k") world_xyz) =
       writes world_xyz ++ [Put "list" "k"]) /\
  (st_list empty_world !! "k" = None /\
   lpop "k" empty_world = (VNull, empty_world) /\
   rpop "k" empty_world = (VNull, empty_world)).
Proof.
  assert (Hl : st_list world_xyz !! "k" = Some xyz)
    by (vm_compute; reflexivity).
  assert (Hne : xyz <> []) by discriminate.
  split; [exact Hl|]. split; [exact Hne|]. split.
  - exact (proj1 (proj2 (pop_null_or_one "k" world_xyz) xyz Hl Hne)).
  - split; [reflexivity|].
    exact (proj1 (pop_null_or_one "k" empty_world) (or_introl eq_refl)).
Defined.

(** [pop_last_element] after [rpush('k', 'x')]. *)
Lemma pop_last_element_witness :
  let w := world_after (rpush "k" [VStr "x"]) empty_world in
  st_list w !! "k" = Some [VStr "x"] /\
  st_expiry w !! "k" = None /\
  st_list (world_after (lpop "k") w) !! "k" = Some [] /\
  result_of (_checkKeyExists "k") (world_after (lpop "k") w) = true /\
  result_of (ttl "k") (world_after (lpop "k") w) = None.
Proof.
  intros w.
  assert (Hl : st_list w !! "k" = Some [VStr "x"])
    by (vm_compute; reflexivity).
  assert (He : st_expiry w !! "k" = None) by reflexivity.
  split; [exact Hl|]. split; [exact He|].
  destruct (proj1 (pop_last_element "k" (VStr "x") w Hl He))
    as (H1 & H2 & _ & _ & H5).
  split; [exact H1|]. split; [exact H2 | exact H5].
Defined.

(** A delay beyond the range of a [long] wraps around: the timer for
    [expire('k', 3000000)] is due at once. *)
Example long_delay_wraps :
  timers <$> worker_onmessage (world_after (expire "k" 3000000) empty_world)
  = Some [("k", 0)].
Proof. vm_compute. reflexivity. Qed.

(** [timer_fires_delete] on the timer that [expire('k', 0)] arms. *)
Lemma timer_fires_delete_witness :
  timers world_armed !! 0%nat = Some ("k", 0) /\
  0 <= clock world_armed /\
  st_keyValue world_armed !! "k" = Some (VNum 1) /\
  (let w' := world_after (_ ← del "k"; _removeExpiry "k")
                         (remove_timer 0 world_armed) in
   background world_armed w' /\
   st_keyValue w' !! "k" = None /\
   st_expiry w' !! "k" = None).
Proof.
  assert (Ht : timers world_armed !! 0%nat = Some ("k", 0))
    by (vm_compute; reflexivity).
  assert (Hdue : 0 <= clock world_armed) by (vm_compute; discriminate).
  split; [exact Ht|]. split; [exact Hdue|].
  split; [vm_compute; reflexivity|].
  destruct (timer_fires_delete world_armed 0 "k" 0 Ht Hdue)
    as (Hbg & _ & Hkv & _ & _ & He).
  split; [exact Hbg|]. split; [exact Hkv | exact He].
Defined.

(** * Further properties of the engine *)

(** ** Existence test *)

(** X1: [_checkKeyExists(key)] answers true exactly when one of the three
    value stores has a record under [key] (an empty list or a stored
    [undefined] counts), and changes nothing. *)
Theorem checkKeyExists_iff_holds_value (key : string) (w : world) :
  (result_of (_checkKeyExists key) w = true <-> holds_value key w) /\
  (result_of (_checkKeyExists key) w = false <-> ~ holds_value key w) /\
  world_after (_checkKeyExists key) w = w.
Proof.
  unfold result_of, world_after. rewrite _checkKeyExists_run. simpl.
  split; [apply bool_decide_eq_true|].
  split; [apply bool_decide_eq_false | reflexivity].
Qed.

(** ** Registering and removing a TTL *)

Lemma expire_run key seconds w :
  expire key seconds w =
  (tt, World (st_keyValue w) (st_hash w) (st_list w)
             (<[key := ExpiryRecord key (clock w + seconds * 1000)]>
                (st_expiry w))
             (writes w ++ [Put "expiry" key]) (clock w)
             (inbox w ++ [(key, clock w + seconds * 1000)]) (timers w)).
Proof. reflexivity. Qed.



(** X4: [_removeExpiry(key)] removes the record of [key] and no other, is a
    no-op on the expiry store when [key] has no record, and undoes a
    [_setExpiry] on a key that had none; it never touches a value store. *)
Theorem removeExpiry_removes_one (key : string) (t : Z) (w : world) :
  let w' := world_after (_removeExpiry key) w in
  st_expiry w' !! key = None /\
  (forall key', key' <> key -> st_expiry w' !! key' = st_expiry w !! key') /\
  (st_expiry w !! key = None ->
   st_expiry w' = st_expiry w /\
   st_expiry (world_after (_ ← _setExpiry key t; _removeExpiry key) w) =
     st_expiry w) /\
  st_keyValue w' = st_keyValue w /\
  st_hash w' = st_hash w /\
  st_list w' = st_list w.
Proof.
  unfold world_after, mbind, M_bind.
  rewrite _setExpiry_run, !_removeExpiry_run. simpl.
  split; [apply lookup_delete_eq|].
  split; [intros key' Hne; apply lookup_delete_ne; congruence|].
  split; [|repeat split].
  intros Hnone. split; [apply delete_id, Hnone|].
  rewrite delete_insert_eq. apply delete_id, Hnone.
Qed.

(** ** Frames of del *)

(** X5: [del(key)] leaves every other key as it was in all four stores. *)
Theorem del_other_keys (key key' : string) (w : world) :
  key' <> key ->
  let w' := world_after (del key) w in
  st_keyValue w' !! key' = st_keyValue w !! key' /\
  st_hash w' !! key' = st_hash w !! key' /\
  st_list w' !! key' = st_list w !! key' /\
  st_expiry w' !! key' = st_expiry w !! key'.
Proof.
  intros Hne. unfold world_after. rewrite del_run. simpl.
  rewrite !lookup_delete_ne by congruence. repeat split.
Qed.

(** X6: [del] is idempotent on the stores, and on a key that holds no
    value it changes no store (it still issues its three delete
    requests). *)
Theorem del_idempotent (key : string) (w : world) :
  let w1 := world_after (del key) w in
  let w2 := world_after (del key) w1 in
  (st_keyValue w2 = st_keyValue w1 /\ st_hash w2 = st_hash w1 /\
   st_list w2 = st_list w1 /\ st_expiry w2 = st_expiry w1) /\
  (~ holds_value key w ->
   st_keyValue w1 = st_keyValue w /\ st_hash w1 = st_hash w /\
   st_list w1 = st_list w /\ st_expiry w1 = st_expiry w) /\
  writes w1 =
    writes w ++ [Delete "keyValue" key; Delete "hash" key; Delete "list" key].
Proof.
  unfold world_after. rewrite !del_run. simpl.
  split; [|split; [|reflexivity]].
  - rewrite !delete_delete_eq. repeat split.
  - intros Hn. unfold holds_value in Hn.
    repeat split; try reflexivity; apply delete_id;
      match goal with
      | |- ?m !! _ = None =>
          destruct (m !! key) eqn:E;
            [exfalso; apply Hn; eauto 6 | reflexivity]
      end.
Qed.

(** ** Frames and overwrites of set and hset *)

(** X7: the last [set] wins: two [set]s on a key leave the keyValue store
    the second alone would leave, and a [set] leaves the scalar of every
    other key as it was. *)
Theorem set_overwrites (key key' : string) (v1 v2 : value) (w : world) :
  st_keyValue (world_after (_ ← set key v1; set key v2) w) =
    st_keyValue (world_after (set key v2) w) /\
  result_of (get key) (world_after (_ ← set key v1; set key v2) w) =
    Some v2 /\
  (key' <> key ->
   result_of (get key') (world_after (set key v1) w) =
     result_of (get key') w).
Proof.
  unfold world_after, result_of, mbind, M_bind.
  rewrite !set_run, !get_run. simpl.
  split; [apply insert_insert_eq|].
  split; [apply lookup_insert_eq|].
  intros Hne. apply lookup_insert_ne. congruence.
Qed.

(** X8: [hset(hash, key, v)] changes one field of one record: the other
    hashes, the other fields of a record that was there, and the three
    other stores are as before.  On an absent record the call creates it,
    so a field name outside [Object.prototype] still reads as null. *)
Theorem hset_frame (hash hash' key key' : string) (v : value) (w : world) :
  let w' := world_after (hset hash key v) w in
  (hash' <> hash ->
   result_of (hget hash' key') w' = result_of (hget hash' key') w) /\
  (key' <> key -> is_Some (st_hash w !! hash) ->
   result_of (hget hash key') w' = result_of (hget hash key') w) /\
  (key' <> key -> inherited key' = false ->
   result_of (hget hash key') w' = result_of (hget hash key') w) /\
  st_keyValue w' = st_keyValue w /\
  st_list w' = st_list w /\
  st_expiry w' = st_expiry w.
Proof.
  unfold world_after, result_of. rewrite hset_run, !hget_run. simpl.
  assert (Hfield : forall obj : gmap string value,
            key' <> key -> js_assign obj key v !! key' = obj !! key').
  { intros obj Hne. unfold js_assign. case_bool_decide; [reflexivity|].
    apply lookup_insert_ne. congruence. }
  split; [|split; [|split; [|repeat split]]].
  - intros Hne. rewrite lookup_insert_ne by congruence. reflexivity.
  - intros Hne [obj Hobj]. rewrite lookup_insert_eq, Hobj. simpl.
    unfold js_in, js_get. rewrite Hfield by exact Hne. reflexivity.
  - intros Hne Hinh. rewrite lookup_insert_eq.
    unfold js_in, js_get. rewrite Hfield by exact Hne. rewrite Hinh.
    destruct (st_hash w !! hash) as [obj|]; simpl; [reflexivity|].
    rewrite lookup_empty.
    rewrite bool_decide_eq_false_2 by (intros [? ?]; discriminate).
    reflexivity.
Qed.

(** X9: the last [hset] of a field wins: two [hset]s of the same field
    leave the hash store the second alone would leave. *)
Theorem hset_overwrites (hash key : string) (v1 v2 : value) (w : world) :
  st_hash (world_after (_ ← hset hash key v1; hset hash key v2) w) =
    st_hash (world_after (hset hash key v2) w).
Proof.
  unfold world_after, mbind, M_bind. rewrite !hset_run. simpl.
  rewrite lookup_insert_eq. simpl. rewrite insert_insert_eq.
  f_equal. unfold js_assign. case_bool_decide; [reflexivity|].
  apply insert_insert_eq.
Qed.

(** ** Frames of the list operations *)

Lemma lpop_only_list key w :
  only_list_changed key w (world_after (lpop key) w).
Proof.
  unfold only_list_changed, world_after. rewrite lpop_run.
  destruct (st_list w !! key) as [[|item rest]|]; simpl; repeat split.
  intros key' Hne. apply lookup_insert_ne. congruence.
Qed.

Lemma rpop_only_list key w :
  only_list_changed key w (world_after (rpop key) w).
Proof.
  unfold only_list_changed, world_after. rewrite rpop_run.
  destruct (Array_pop (default [] (st_list w !! key))) as [[item rest]|];
    simpl; repeat split.
  intros key' Hne. apply lookup_insert_ne. congruence.
Qed.

(** X10: [lpush], [rpush], [lpop] and [rpop] on [key] leave the keyValue,
    hash and expiry stores and the list of every other key as they
    were. *)
Theorem list_operations_frame (key : string) (values : list value)
    (w : world) :
  only_list_changed key w (world_after (lpush key values) w) /\
  only_list_changed key w (world_after (rpush key values) w) /\
  only_list_changed key w (world_after (lpop key) w) /\
  only_list_changed key w (world_after (rpop key) w).
Proof.
  split; [|split; [|split; [apply lpop_only_list | apply rpop_only_list]]].
  - unfold only_list_changed, world_after. rewrite lpush_run. simpl.
    repeat split. intros key' Hne. apply lookup_insert_ne. congruence.
  - unfold only_list_changed, world_after. rewrite rpush_run. simpl.
    repeat split. intros key' Hne. apply lookup_insert_ne. congruence.
Qed.

(** X11: one key can hold a scalar, a hash and a list at the same time:
    after [set], [hset] and [rpush] on the same key each of [get], [hget]
    and [lrange] reads back what its own store was given. *)
Theorem value_types_coexist (key field : string) (v x : value)
    (values : list value) (w : world) :
  field <> "__proto__" ->
  let w' :=
    world_after (_ ← set key v; _ ← hset key field x; rpush key values) w in
  result_of (get key) w' = Some v /\
  result_of (hget key field) w' = Data x /\
  result_of (lrange key 0 (-1)) w' =
    result_of (lrange key 0 (-1)) w ++ values.
Proof.
  intros Hf w'. subst w'. rewrite !lrange_whole.
  unfold world_after, result_of, mbind, M_bind.
  rewrite set_run, hset_run, rpush_run, get_run, hget_run. simpl.
  rewrite !lookup_insert_eq. simpl.
  split; [reflexivity|]. split; [|reflexivity].
  unfold js_in, js_get, js_assign.
  rewrite (bool_decide_eq_false_2 (field = "__proto__") Hf).
  rewrite lookup_insert_eq.
  rewrite bool_decide_eq_true_2 by eauto. reflexivity.
Qed.

(** ** Pushing and popping *)

(** X12: [lpop] after [lpush] gives back the first argument of the push and
    [rpop] after [rpush] the last one, leaving the other arguments with the
    prior contents; pushing and popping a single value leaves the contents
    as they were, yet a key that was absent now exists with an empty
    list. *)
Theorem push_then_pop (key : string) (x : value) (more : list value)
    (w : world) :
  let prior := default [] (st_list w !! key) in
  (let m := _ ← lpush key (x :: more); lpop key in
   result_of m w = x /\
   st_list (world_after m w) !! key = Some (more ++ prior)) /\
  (let m := _ ← rpush key (more ++ [x]); rpop key in
   result_of m w = x /\
   st_list (world_after m w) !! key = Some (prior ++ more)) /\
  (let m := _ ← lpush key [x]; lpop key in
   result_of (lrange key 0 (-1)) (world_after m w) =
     result_of (lrange key 0 (-1)) w /\
   result_of (_checkKeyExists key) (world_after m w) = true).
Proof.
  assert (Hl : forall rest : list value,
            (_ ← lpush key (x :: rest); lpop key) w =
            (x, logged [Put "list" key]
                  (with_list
                     (<[key := rest ++ default [] (st_list w !! key)]>
                        (st_list (world_after (lpush key (x :: rest)) w)))
                     (world_after (lpush key (x :: rest)) w)))).
  { intros rest. unfold world_after, mbind, M_bind.
    rewrite lpush_run. cbv beta iota zeta. rewrite lpop_run. simpl.
    rewrite lookup_insert_eq. reflexivity. }
  assert (Hr :
            (_ ← rpush key (more ++ [x]); rpop key) w =
            (x, logged [Put "list" key]
                  (with_list
                     (<[key := default [] (st_list w !! key) ++ more]>
                        (st_list (world_after (rpush key (more ++ [x])) w)))
                     (world_after (rpush key (more ++ [x])) w)))).
  { unfold world_after, mbind, M_bind.
    rewrite rpush_run. cbv beta iota zeta.
    erewrite rpop_run_snoc
      by (simpl; rewrite lookup_insert_eq, app_assoc; reflexivity).
    reflexivity. }
  cbv zeta. rewrite !lrange_whole. unfold result_of, world_after.
  rewrite _checkKeyExists_run, !Hl, Hr.
  unfold world_after. rewrite !lpush_run, rpush_run. simpl.
  split; [split; [reflexivity | apply lookup_insert_eq]|].
  split; [split; [reflexivity | apply lookup_insert_eq]|].
  split; [rewrite lookup_insert_eq; reflexivity|].
  apply bool_decide_eq_true_2. right. right. simpl.
  rewrite lookup_insert_eq. eauto.
Qed.

Lemma lpop_times_drains (key : string) (l : list value) :
  forall w : world,
    st_list w !! key = Some l ->
    result_of (lpop_times (length l) key) w = l /\
    st_list (world_after (lpop_times (length l) key) w) !! key = Some [].
Proof.
  induction l as [|x l IH]; intros w Hl.
  - split; [reflexivity | exact Hl].
  - simpl. unfold result_of, world_after, mbind, M_bind.
    rewrite lpop_run, Hl.
    set (w1 := logged [Put "list" key]
                 (with_list (<[key := l]> (st_list w)) w)).
    assert (Hl1 : st_list w1 !! key = Some l) by apply lookup_insert_eq.
    destruct (IH w1 Hl1) as [Hr Hs].
    unfold result_of, world_after in Hr, Hs.
    destruct (lpop_times (length l) key w1) as [items w2].
    simpl in *. subst items. split; [reflexivity | exact Hs].
Qed.

Lemma rpop_times_drains (key : string) (l : list value) :
  forall w : world,
    st_list w !! key = Some l ->
    result_of (rpop_times (length l) key) w = reverse l /\
    st_list (world_after (rpop_times (length l) key) w) !! key = Some [].
Proof.
  induction l as [|x l IH] using rev_ind; intros w Hl.
  - split; [reflexivity | exact Hl].
  - rewrite length_app, Nat.add_1_r, reverse_snoc. simpl.
    unfold result_of, world_after, mbind, M_bind.
    rewrite (rpop_run_snoc key w l x Hl).
    set (w1 := logged [Put "list" key]
                 (with_list (<[key := l]> (st_list w)) w)).
    assert (Hl1 : st_list w1 !! key = Some l) by apply lookup_insert_eq.
    destruct (IH w1 Hl1) as [Hr Hs].
    unfold result_of, world_after in Hr, Hs.
    destruct (rpop_times (length l) key w1) as [items w2].
    simpl in *. subst items. split; [reflexivity | exact Hs].
Qed.

(** X13: a list is a queue and a stack: after [rpush(key, values...)] on an
    absent key, as many [lpop]s as there are values return them in the
    order given and as many [rpop]s return them in reverse; after either
    the list is empty and the next pop returns null. *)
Theorem queue_and_stack (key : string) (values : list value) (w : world) :
  st_list w !! key = None ->
  let w1 := world_after (rpush key values) w in
  let n := length values in
  result_of (lpop_times n key) w1 = values /\
  result_of (rpop_times n key) w1 = reverse values /\
  result_of (lpop key) (world_after (lpop_times n key) w1) = VNull /\
  result_of (rpop key) (world_after (rpop_times n key) w1) = VNull.
Proof.
  intros Habs w1 n.
  assert (Hl : st_list w1 !! key = Some values).
  { unfold w1, world_after. rewrite rpush_run. simpl.
    rewrite lookup_insert_eq, Habs. reflexivity. }
  destruct (lpop_times_drains key values w1 Hl) as [Hq Hqs].
  destruct (rpop_times_drains key values w1 Hl) as [Hs Hss].
  fold n in Hq, Hqs, Hs, Hss.
  split; [exact Hq|]. split; [exact Hs|]. split.
  - unfold result_of. rewrite lpop_run, Hqs. reflexivity.
  - unfold result_of. rewrite rpop_run_empty by (right; exact Hss).
    reflexivity.
Qed.

(** ** Ranges *)

Lemma Array_slice_segment {A} (l : list A) (start end_ : Z) :
  exists before after, l = before ++ Array_slice l start end_ ++ after.
Proof.
  unfold Array_slice.
  set (k := Z.to_nat _). set (n := Z.to_nat _).
  exists (take n l), (drop k (drop n l)).
  rewrite (take_drop k), (take_drop n). reflexivity.
Qed.

(** X14: [lrange] returns a run of consecutive elements of the stored list
    and changes nothing; for a [start] and a [stop] that are not negative
    the run has [min(stop + 1, L) - min(start, L)] elements, none when
    that is not positive (so none when [start > stop]). *)
Theorem lrange_is_segment (key : string) (l : list value) (start stop : Z)
    (w : world) :
  st_list w !! key = Some l ->
  let range := result_of (lrange key start stop) w in
  let L := Z.of_nat (length l) in
  (exists before after, l = before ++ range ++ after) /\
  world_after (lrange key start stop) w = w /\
  (0 <= start -> 0 <= stop ->
   Z.of_nat (length range) = Z.max 0 (Z.min (stop + 1) L - Z.min start L)).
Proof.
  intros Hl range L. subst range.
  unfold result_of, world_after. rewrite lrange_run, Hl. simpl.
  split; [apply Array_slice_segment|]. split; [reflexivity|].
  intros Hs Hst. fold L.
  destruct (Z.ltb_spec stop 0); [lia|].
  unfold Array_slice. fold L.
  destruct (Z.ltb_spec start 0); [lia|].
  destruct (Z.ltb_spec (stop + 1) 0); [lia|].
  rewrite length_take, length_drop. lia.
Qed.

(** X15: two pages cover the list: for [1 <= i <= L],
    [lrange(k, 0, i - 1)] followed by [lrange(k, i, -1)] is the whole
    list.  For [i = 0] the first page is not empty: its [stop] is [-1],
    the last element. *)
Theorem lrange_pages (key : string) (l : list value) (i : Z) (w : world) :
  st_list w !! key = Some l ->
  (1 <= i <= Z.of_nat (length l) ->
   result_of (lrange key 0 (i - 1)) w ++ result_of (lrange key i (-1)) w
   = l) /\
  result_of (lrange key 0 (0 - 1)) w = l.
Proof.
  intros Hl. split.
  - intros Hi. unfold result_of. rewrite !lrange_run, Hl. simpl.
    destruct (Z.ltb_spec (i - 1) 0); [lia|].
    rewrite !Array_slice_inside by lia.
    replace (i - 1 + 1 - 0) with i by lia. simpl.
    rewrite (take_ge (drop (Z.to_nat i) l)) by (rewrite length_drop; lia).
    apply take_drop.
  - change (0 - 1) with (-1). rewrite lrange_whole, Hl. reflexivity.
Qed.

(** X16: a negative [start] counts from the end: for [1 <= n <= L],
    [lrange(k, -n, -1)] is the last [n] elements of the list. *)
Theorem lrange_tail (key : string) (l : list value) (n : Z) (w : world) :
  st_list w !! key = Some l ->
  1 <= n <= Z.of_nat (length l) ->
  let range := result_of (lrange key (- n) (-1)) w in
  range = drop (Z.to_nat (Z.of_nat (length l) - n)) l /\
  Z.of_nat (length range) = n.
Proof.
  intros Hl Hn range. subst range.
  unfold result_of. rewrite lrange_run, Hl. simpl.
  unfold Array_slice.
  destruct (Z.ltb_spec (- n) 0); [|lia].
  destruct (Z.ltb_spec (Z.of_nat (length l) + -1 + 1) 0); [lia|].
  replace (Z.max (Z.of_nat (length l) + - n) 0)
    with (Z.of_nat (length l) - n) by lia.
  rewrite take_ge by (rewrite length_drop; lia).
  split; [reflexivity|]. rewrite length_drop. lia.
Qed.

(** ** What calls leave of a registered TTL *)

Lemma run_call_worker (c : call) (w : world) :
  timers (run_call c w) = timers w /\
  clock (run_call c w) = clock w /\
  exists posted, inbox (run_call c w) = inbox w ++ posted.
Proof.
  destruct c; cbn [run_call]; unfold world_after;
    rewrite ?set_run, ?get_run, ?hset_run, ?hget_run, ?lpush_run,
      ?rpush_run, ?lrange_run, ?del_run, ?expire_run, ?ttl_run, ?lpop_run,
      ?rpop_run;
    try (split; [reflexivity|]; split; [reflexivity|];
         first [ exists []; simpl; rewrite app_nil_r; reflexivity
               | eexists; reflexivity ]).
  - destruct (st_list w !! key) as [[|item rest]|]; simpl;
      (split; [reflexivity|]; split; [reflexivity|];
       exists []; rewrite app_nil_r; reflexivity).
  - destruct (Array_pop (default [] (st_list w !! key))) as [[item rest]|];
      simpl;
      (split; [reflexivity|]; split; [reflexivity|];
       exists []; rewrite app_nil_r; reflexivity).
Qed.

(** What a call does to the expiry store: nothing, unless it is [expire],
    which puts the record of its key. *)
Lemma run_call_expiry (c : call) (w : world) :
  st_expiry (run_call c w) = st_expiry w \/
  exists key seconds,
    c = Call_expire key seconds /\
    st_expiry (run_call c w) =
      <[key := ExpiryRecord key (clock w + seconds * 1000)]> (st_expiry w) /\
    (key, clock w + seconds * 1000) ∈ inbox (run_call c w).
Proof.
  destruct c; cbn [run_call]; unfold world_after;
    rewrite ?set_run, ?get_run, ?hset_run, ?hget_run, ?lpush_run,
      ?rpush_run, ?lrange_run, ?del_run, ?ttl_run, ?lpop_run, ?rpop_run;
    try (left; reflexivity).
  - left. destruct (st_list w !! key) as [[|item rest]|]; reflexivity.
  - left.
    destruct (Array_pop (default [] (st_list w !! key))) as [[item rest]|];
      reflexivity.
  - right. exists key, seconds. rewrite expire_run. simpl.
    split; [reflexivity|]. split; [reflexivity|].
    apply elem_of_app. right. apply list_elem_of_singleton. reflexivity.
Qed.

Lemma run_call_scheduled (c : call) (key : string) (w : world) :
  scheduled key w -> scheduled key (run_call c w).
Proof.
  destruct (run_call_worker c w) as (Ht & _ & posted & Hi).
  unfold scheduled. rewrite Ht, Hi.
  intros [[t Hin] | Htimer]; [left | right; exact Htimer].
  exists t. apply elem_of_app. left. exact Hin.
Qed.

Lemma run_calls_scheduled (calls : list call) (key : string) :
  forall w : world, scheduled key w -> scheduled key (run_calls calls w).
Proof.
  induction calls as [|c calls IH]; intros w Hs; [exact Hs|].
  simpl. apply IH, run_call_scheduled, Hs.
Qed.

(** A world in which the timer at index [i] is for [key] leads to one
    without value or record for [key]. *)
Lemma armed_timer_deletes (key : string) (due : Z) (i : nat) (w : world) :
  timers w !! i = Some (key, due) ->
  exists w',
    rtc background w w' /\ ~ holds_value key w' /\
    st_expiry w' !! key = None.
Proof.
  intros Ht.
  set (dt := Z.max (due - clock w) 0).
  set (w1 := advance dt w).
  assert (Ht1 : timers w1 !! i = Some (key, due)) by exact Ht.
  assert (Hdue : due <= clock w1) by (simpl; unfold dt; lia).
  eexists. split.
  - eapply rtc_l; [apply (bg_time w dt); unfold dt; lia|].
    eapply rtc_l; [exact (bg_fire w1 i key due Ht1 Hdue)|].
    apply rtc_refl.
  - destruct (handler_clears_key key (remove_timer i w1))
      as (Hkv & Hh & Hl & He).
    split; [|exact He].
    unfold holds_value. rewrite Hkv, Hh, Hl.
    intros [H|[H|H]]; destruct H; discriminate.
Qed.

Lemma scheduled_deletes (key : string) (w : world) :
  scheduled key w ->
  exists w',
    rtc background w w' /\ ~ holds_value key w' /\
    st_expiry w' !! key = None.
Proof.
  intros Hs.
  destruct (worker_drains_inbox w)
    as (w1 & Hrtc & _ & _ & _ & _ & _ & _ & Ht).
  assert (Harmed : exists due, (key, due) ∈ timers w1).
  { rewrite Ht. destruct Hs as [[t Hin] | [due Hin]].
    - eexists. apply elem_of_app. right.
      apply list_elem_of_fmap. exists (key, t). split; [reflexivity|].
      exact Hin.
    - exists due. apply elem_of_app. left. exact Hin. }
  destruct Harmed as [due Hin].
  apply list_elem_of_lookup_1 in Hin. destruct Hin as [i Hi].
  destruct (armed_timer_deletes key due i w1 Hi) as (w' & Hrtc' & Hv & He).
  exists w'. split; [eapply rtc_trans; eassumption|]. split; assumption.
Qed.

(** X17: no public method removes an Expiry Record: after any sequence of
    calls, [del] included, a key that had a record still has one. *)
Theorem expiry_record_outlives_calls (calls : list call) (key : string)
    (w : world) :
  is_Some (st_expiry w !! key) ->
  is_Some (st_expiry (run_calls calls w) !! key).
Proof.
  revert w. induction calls as [|c calls IH]; intros w Hsome; [exact Hsome|].
  simpl. apply IH.
  destruct (run_call_expiry c w) as [-> | (key' & seconds & _ & -> & _)];
    [exact Hsome|].
  destruct (decide (key' = key)) as [->|Hne].
  - rewrite lookup_insert_eq. eauto.
  - rewrite lookup_insert_ne by exact Hne. exact Hsome.
Qed.

(** X18: no public method cancels a registered TTL: whatever is called
    after [expire(key, seconds)], a [del] and a new [set] of the key
    included, the worker still holds the message or timer of that call,
    and the world can go on, without any further call, to one where
    [key] has neither value nor Expiry Record. *)
Theorem registered_ttl_survives_calls (calls : list call) (key : string)
    (seconds : Z) (w : world) :
  let w1 := run_calls calls (world_after (expire key seconds) w) in
  scheduled key w1 /\
  exists w',
    rtc background w1 w' /\ ~ holds_value key w' /\
    st_expiry w' !! key = None.
Proof.
  intros w1.
  assert (Hs : scheduled key w1).
  { apply run_calls_scheduled. left. exists (clock w + seconds * 1000).
    unfold world_after. rewrite expire_run. simpl.
    apply elem_of_app. right. apply list_elem_of_singleton. reflexivity. }
  split; [exact Hs | apply scheduled_deletes, Hs].
Qed.

Lemma background_expiry_scheduled (w w' : world) :
  expiry_scheduled w -> background w w' -> expiry_scheduled w'.
Proof.
  intros Hinv Hbg. destruct Hbg as [w dt _ | w w' Hrecv | w i key due Ht _].
  - exact Hinv.
  - unfold worker_onmessage in Hrecv.
    destruct (inbox w) as [|[key t] rest] eqn:Hin; [discriminate|].
    injection Hrecv as <-.
    intros k r Hr. destruct (Hinv k r Hr) as [Hk Hs]. split; [exact Hk|].
    unfold scheduled in *. simpl. rewrite Hin in Hs.
    destruct Hs as [[t' Hin'] | [due Htimer]].
    + apply elem_of_cons in Hin'. destruct Hin' as [Heq | Hrest].
      * right. injection Heq as -> ->. eexists.
        apply elem_of_app. right. apply list_elem_of_singleton. reflexivity.
      * left. exists t'. exact Hrest.
    + right. exists due. apply elem_of_app. left. exact Htimer.
  - intros k r Hr. unfold world_after in Hr. rewrite onmessage_run in Hr.
    simpl in Hr.
    destruct (decide (k = key)) as [->|Hne];
      [rewrite lookup_delete_eq in Hr; discriminate|].
    rewrite lookup_delete_ne in Hr by congruence.
    destruct (Hinv k r Hr) as [Hk Hs]. split; [exact Hk|].
    unfold world_after. rewrite onmessage_run. unfold scheduled in *. simpl.
    destruct Hs as [Hin | [due' Htimer]]; [left; exact Hin|].
    right. exists due'.
    rewrite (delete_Permutation _ _ _ Ht) in Htimer.
    apply elem_of_cons in Htimer. destruct Htimer as [Heq | Hrest];
      [congruence | exact Hrest].
Qed.

Lemma run_call_expiry_scheduled (c : call) (w : world) :
  expiry_scheduled w -> expiry_scheduled (run_call c w).
Proof.
  intros Hinv k r Hr.
  destruct (run_call_expiry c w)
    as [Hsame | (key & seconds & _ & Hput & Hposted)].
  - rewrite Hsame in Hr. destruct (Hinv k r Hr) as [Hk Hs].
    split; [exact Hk | apply run_call_scheduled, Hs].
  - rewrite Hput in Hr. destruct (decide (key = k)) as [->|Hne].
    + rewrite lookup_insert_eq in Hr. injection Hr as <-.
      split; [reflexivity|]. left. eexists. exact Hposted.
    + rewrite lookup_insert_ne in Hr by exact Hne.
      destruct (Hinv k r Hr) as [Hk Hs].
      split; [exact Hk | apply run_call_scheduled, Hs].
Qed.

(** X19: in a session that starts on a fresh database, every Expiry Record
    is stored under its own key and has a posted message or an armed timer
    for that key: no record is left without a deletion to come. *)
Theorem reachable_expiry_scheduled (w : world) :
  reachable w -> expiry_scheduled w.
Proof.
  induction 1 as [|w c _ IH | w w' _ IH Hbg].
  - intros k r Hr. unfold empty_world in Hr. simpl in Hr.
    rewrite lookup_empty in Hr. discriminate.
  - apply run_call_expiry_scheduled, IH.
  - eapply background_expiry_scheduled; eassumption.
Qed.

(** ** Timers *)

Lemma ToInt32_small (z : Z) : 0 <= z < 2 ^ 31 -> ToInt32 z = z.
Proof.
  intros Hz. unfold ToInt32. rewrite Z.mod_small by lia.
  destruct (Z.ltb_spec z (2 ^ 31)); [reflexivity | lia].
Qed.





(** X21: registering a longer TTL does not disarm the timer of a shorter
    one: after [expire(key, s1)] and [expire(key, s2)] with [s1 < s2] the
    record says [now + s2 * 1000], yet the first timer is due at
    [now + s1 * 1000], and when it fires the handler deletes the values of
    [key] and its record without looking at [expireAt]. *)
Theorem earlier_timer_still_fires (key : string) (s1 s2 : Z) (w : world) :
  inbox w = [] ->
  0 <= s1 * 1000 < s2 * 1000 ->
  s2 * 1000 < 2 ^ 31 ->
  let w2 := world_after (_ ← expire key s1; expire key s2) w in
  st_expiry w2 !! key = Some (ExpiryRecord key (clock w + s2 * 1000)) /\
  exists w',
    rtc background w2 w' /\
    clock w' = clock w + s1 * 1000 /\
    clock w' < clock w + s2 * 1000 /\
    ~ holds_value key w' /\
    st_expiry w' !! key = None.
Proof.
  intros Hin Hs1 Hs2 w2.
  assert (Hw2 : inbox w2 =
                  [(key, clock w + s1 * 1000); (key, clock w + s2 * 1000)]
                /\ timers w2 = timers w /\ clock w2 = clock w /\
                st_expiry w2 !! key =
                  Some (ExpiryRecord key (clock w + s2 * 1000))).
  { unfold w2, world_after, mbind, M_bind. rewrite !expire_run. simpl.
    rewrite Hin. split; [reflexivity|]. split; [reflexivity|].
    split; [reflexivity | apply lookup_insert_eq]. }
  destruct Hw2 as (Hinbox & Htimers & Hclock & Hrecord).
  split; [exact Hrecord|].
  destruct (worker_drains_inbox w2)
    as (w3 & Hrtc & _ & _ & _ & _ & _ & Hc3 & Ht3).
  rewrite Hinbox, Htimers, Hclock in Ht3. simpl in Ht3.
  replace (clock w + s1 * 1000 - clock w) with (s1 * 1000) in Ht3 by lia.
  rewrite ToInt32_small, Z.max_l in Ht3 by lia.
  set (w4 := advance (s1 * 1000) w3).
  assert (Ht4 : timers w4 !! length (timers w)
                = Some (key, clock w + s1 * 1000)).
  { simpl. rewrite Ht3. apply list_lookup_middle. reflexivity. }
  assert (Hdue : clock w + s1 * 1000 <= clock w4).
  { simpl. rewrite Hc3, Hclock. lia. }
  eexists. split.
  { eapply rtc_trans; [exact Hrtc|].
    eapply rtc_l; [apply (bg_time w3 (s1 * 1000)); lia|].
    eapply rtc_l; [exact (bg_fire w4 _ key _ Ht4 Hdue)|].
    apply rtc_refl. }
  destruct (handler_clears_key key (remove_timer (length (timers w)) w4))
    as (Hkv & Hh & Hl & He).
  assert (Hc : clock (world_after (onmessage (timer_message key))
                        (remove_timer (length (timers w)) w4))
               = clock w + s1 * 1000).
  { unfold world_after. rewrite onmessage_run. simpl.
    rewrite Hc3, Hclock. reflexivity. }
  split; [exact Hc|]. split; [rewrite Hc; lia|].
  split; [|exact He].
  unfold holds_value. rewrite Hkv, Hh, Hl.
  intros [H|[H|H]]; destruct H; discriminate.
Qed.

Lemma unscheduled_step (key : string) (w w' : world) :
  ~ scheduled key w -> background w w' ->
  ~ scheduled key w' /\
  st_keyValue w' !! key = st_keyValue w !! key /\
  st_hash w' !! key = st_hash w !! key /\
  st_list w' !! key = st_list w !! key /\
  st_expiry w' !! key = st_expiry w !! key.
Proof.
  intros Hns Hbg. destruct Hbg as [w dt _ | w w' Hrecv | w i k due Ht _].
  - split; [exact Hns | repeat split].
  - unfold worker_onmessage in Hrecv.
    destruct (inbox w) as [|[k t] rest] eqn:Hin; [discriminate|].
    injection Hrecv as <-. simpl. split; [|repeat split].
    intros [[t' Hin'] | [due Htimer]]; simpl in *.
    + apply Hns. left. exists t'. rewrite Hin. apply elem_of_cons. eauto.
    + apply elem_of_app in Htimer. destruct Htimer as [Hold | Hnew].
      * apply Hns. right. eauto.
      * apply list_elem_of_singleton in Hnew. injection Hnew as -> _.
        apply Hns. left. exists t. rewrite Hin. apply elem_of_cons. eauto.
  - assert (Hne : k <> key).
    { intros ->. apply Hns. right. exists due.
      eapply list_elem_of_lookup_2, Ht. }
    unfold world_after. rewrite onmessage_run. simpl.
    rewrite !lookup_delete_ne by exact Hne.
    split; [|repeat split].
    intros [Hin | [due' Htimer]]; simpl in *.
    + apply Hns. left. exact Hin.
    + apply Hns. right. exists due'.
      eapply list_elem_of_delete_inv, Htimer.
Qed.

(** X22: the worker deletes nothing it was not asked to: a key for which
    it holds neither message nor timer keeps its value in every store, and
    its Expiry Record if it has one, through every background step. *)
Theorem unscheduled_key_is_kept (key : string) (w w' : world) :
  ~ scheduled key w ->
  rtc background w w' ->
  ~ scheduled key w' /\
  st_keyValue w' !! key = st_keyValue w !! key /\
  st_hash w' !! key = st_hash w !! key /\
  st_list w' !! key = st_list w !! key /\
  st_expiry w' !! key = st_expiry w !! key.
Proof.
  intros Hns Hrtc. induction Hrtc as [w | w w1 w' Hstep _ IH].
  - split; [exact Hns | repeat split].
  - destruct (unscheduled_step key w w1 Hns Hstep)
      as (Hns1 & Hkv & Hh & Hl & He).
    destruct (IH Hns1) as (Hns' & Hkv' & Hh' & Hl' & He').
    split; [exact Hns'|].
    rewrite Hkv', Hh', Hl', He', Hkv, Hh, Hl, He. repeat split.
Qed.

(** ** Connecting *)





(** ** Witnesses of the further properties *)

(** [del_other_keys] with the keys ['k'] and ['j']. *)
Lemma del_other_keys_witness :
  let w := world_after (set "j" (VNum 2)) world_expired in
  "j" <> "k" /\
  st_keyValue (world_after (del "k") w) !! "j" = Some (VNum 2) /\
  st_keyValue (world_after (del "k") w) !! "k" = None.
Proof.
  intros w. assert (Hne : "j" <> "k") by discriminate.
  split; [exact Hne|].
  destruct (del_other_keys "k" "j" w Hne) as (Hkv & _).
  split; [rewrite Hkv; vm_compute; reflexivity | vm_compute; reflexivity].
Defined.

(** [value_types_coexist] with the field ['name']. *)
Lemma value_types_coexist_witness :
  "name" <> "__proto__" /\
  (let w' :=
     world_after (_ ← set "k" (VNum 1);
                  _ ← hset "k" "name" (VStr "x");
                  rpush "k" [VNum 2]) empty_world in
   result_of (get "k") w' = Some (VNum 1) /\
   result_of (hget "k" "name") w' = Data (VStr "x") /\
   result_of (lrange "k" 0 (-1)) w' = [VNum 2]).
Proof.
  assert (Hne : "name" <> "__proto__") by discriminate.
  split; [exact Hne|].
  exact (value_types_coexist "k" "name" (VNum 1) (VStr "x") [VNum 2]
           empty_world Hne).
Defined.

(** [queue_and_stack] with [rpush('k', 'x', 'y', 'z')]. *)
Lemma queue_and_stack_witness :
  st_list empty_world !! "k" = None /\
  result_of (lpop_times 3 "k") world_xyz = xyz /\
  result_of (rpop_times 3 "k") world_xyz = [VStr "z"; VStr "y"; VStr "x"].
Proof.
  assert (Habs : st_list empty_world !! "k" = None) by reflexivity.
  split; [exact Habs|].
  destruct (queue_and_stack "k" xyz empty_world Habs) as (Hq & Hs & _).
  split; [exact Hq | exact Hs].
Defined.

(** [lrange_is_segment] on the list [x, y, z] with [start = 2 > stop = 1]. *)
Lemma lrange_is_segment_witness :
  st_list world_xyz !! "k" = Some xyz /\
  Z.of_nat (length (result_of (lrange "k" 2 1) world_xyz)) = 0 /\
  world_after (lrange "k" 2 1) world_xyz = world_xyz.
Proof.
  assert (Hl : st_list world_xyz !! "k" = Some xyz)
    by (vm_compute; reflexivity).
  split; [exact Hl|].
  destruct (lrange_is_segment "k" xyz 2 1 world_xyz Hl) as (_ & Hw & Hn).
  split; [|exact Hw].
  rewrite Hn by lia. reflexivity.
Defined.

(** [lrange_pages] on the list [x, y, z], split after the first element. *)
Lemma lrange_pages_witness :
  st_list world_xyz !! "k" = Some xyz /\
  result_of (lrange "k" 0 (1 - 1)) world_xyz ++
    result_of (lrange "k" 1 (-1)) world_xyz = xyz.
Proof.
  assert (Hl : st_list world_xyz !! "k" = Some xyz)
    by (vm_compute; reflexivity).
  assert (Hi : 1 <= 1 <= Z.of_nat (length xyz)) by (simpl; lia).
  split; [exact Hl|].
  exact (proj1 (lrange_pages "k" xyz 1 world_xyz Hl) Hi).
Defined.

(** [lrange_tail] on the list [x, y, z] with [n = 2]. *)
Lemma lrange_tail_witness :
  st_list world_xyz !! "k" = Some xyz /\
  1 <= 2 <= Z.of_nat (length xyz) /\
  result_of (lrange "k" (- 2) (-1)) world_xyz = [VStr "y"; VStr "z"].
Proof.
  assert (Hl : st_list world_xyz !! "k" = Some xyz)
    by (vm_compute; reflexivity).
  assert (Hn : 1 <= 2 <= Z.of_nat (length xyz)) by (simpl; lia).
  split; [exact Hl|]. split; [exact Hn|].
  exact (proj1 (lrange_tail "k" xyz 2 world_xyz Hl Hn)).
Defined.

(** [expiry_record_outlives_calls] with [del('k')] and [set('k', 2)] after
    [expire('k', 0)]. *)
Lemma expiry_record_outlives_calls_witness :
  is_Some (st_expiry world_expired !! "k") /\
  is_Some (st_expiry
             (run_calls [Call_del "k"; Call_set "k" (VNum 2)] world_expired)
           !! "k").
Proof.
  assert (Hsome : is_Some (st_expiry world_expired !! "k")).
  { exists (ExpiryRecord "k" 0). vm_compute. reflexivity. }
  split; [exact Hsome|].
  exact (expiry_record_outlives_calls
           [Call_del "k"; Call_set "k" (VNum 2)] "k" world_expired Hsome).
Defined.

(** [reachable_expiry_scheduled] after [expire('k', 0)] on a fresh
    database. *)
Lemma reachable_expiry_scheduled_witness :
  let w := run_call (Call_expire "k" 0) empty_world in
  reachable w /\
  st_expiry w !! "k" = Some (ExpiryRecord "k" 0) /\
  scheduled "k" w.
Proof.
  intros w.
  assert (Hreach : reachable w)
    by exact (reach_call empty_world (Call_expire "k" 0) reach_start).
  assert (Hr : st_expiry w !! "k" = Some (ExpiryRecord "k" 0))
    by (vm_compute; reflexivity).
  split; [exact Hreach|]. split; [exact Hr|].
  exact (proj2 (reachable_expiry_scheduled w Hreach "k" _ Hr)).
Defined.


(** [earlier_timer_still_fires] with TTLs of one and two seconds. *)
Lemma earlier_timer_still_fires_witness :
  inbox empty_world = [] /\
  0 <= 1 * 1000 < 2 * 1000 /\
  2 * 1000 < 2 ^ 31 /\
  exists w',
    rtc background
      (world_after (_ ← expire "k" 1; expire "k" 2) empty_world) w' /\
    clock w' = 1000 /\
    st_expiry w' !! "k" = None.
Proof.
  assert (Hin : inbox empty_world = []) by reflexivity.
  assert (Hs1 : 0 <= 1 * 1000 < 2 * 1000) by lia.
  assert (Hs2 : 2 * 1000 < 2 ^ 31) by lia.
  split; [exact Hin|]. split; [exact Hs1|]. split; [exact Hs2|].
  destruct (earlier_timer_still_fires "k" 1 2 empty_world Hin Hs1 Hs2)
    as (_ & w' & Hrtc & Hc & _ & _ & He).
  exists w'. split; [exact Hrtc|]. split; [exact Hc | exact He].
Defined.

(** [unscheduled_key_is_kept] with the key ['j'] while the timer of ['k']
    fires. *)
Lemma unscheduled_key_is_kept_witness :
  let w := world_after (set "j" (VNum 2)) world_armed in
  let w' := world_after (onmessage (timer_message "k")) (remove_timer 0 w) in
  ~ scheduled "j" w /\
  rtc background w w' /\
  st_keyValue w' !! "j" = Some (VNum 2) /\
  st_keyValue w' !! "k" = None.
Proof.
  intros w w'.
  assert (Hns : ~ scheduled "j" w).
  { intros [[t Hin] | [due Hin]].
    - vm_compute in Hin. inversion Hin.
    - vm_compute in Hin. inversion Hin as [|? ? ? Hin']; subst.
      inversion Hin'. }
  assert (Ht : timers w !! 0%nat = Some ("k", 0))
    by (vm_compute; reflexivity).
  assert (Hdue : 0 <= clock w) by (vm_compute; discriminate).
  assert (Hrtc : rtc background w w')
    by exact (rtc_once _ _ (bg_fire w 0 "k" 0 Ht Hdue)).
  split; [exact Hns|]. split; [exact Hrtc|].
  destruct (unscheduled_key_is_kept "j" w w' Hns Hrtc) as (_ & Hkv & _).
  split; [rewrite Hkv; vm_compute; reflexivity | vm_compute; reflexivity].
Defined.


